(** * A shallow embedding of [single-linked-list.h]

    The header defines [SingleLinkedList<Type>]: a sentinel node embedded in
    the container object, a chain of heap nodes hanging off it, a cached
    [size_], and a cursor class [BasicIterator] in a mutable and a read-only
    flavour.

    Nodes are reached through raw [Node*] pointers, so the embedding keeps an
    explicit store: heap nodes and container objects live in two finite maps,
    a [Node*] is null, the address of a heap node, or the address of the
    sentinel embedded in some container object.  Every member function is a
    computation in a small monad whose outcomes tell apart a normal return,
    a propagating [std::bad_alloc], undefined behaviour (a null or dangling
    access), and an abort ([assert] failure or an exception leaving a
    [noexcept] function).  Loops take fuel. *)

From Stdlib Require Import ZArith Lia.
From stdpp Require Import base numbers option list gmap.

(** ** Pointers *)

(** A value of type [Node*]. *)
Inductive NodePtr : Type :=
| nullptr
| heap_node (a : positive)   (* a node created by [new Node(...)] *)
| head_of (c : positive).    (* [&head_] of the container object at [c] *)

#[global] Instance NodePtr_eq_dec : EqDecision NodePtr.
Proof. solve_decision. Defined.

(** The two instantiations of [BasicIterator<ValueType>]. *)
Inductive access : Type :=
| Mutable     (* BasicIterator<Type>,       alias Iterator *)
| ReadOnly.   (* BasicIterator<const Type>, alias ConstIterator *)

(** [class BasicIterator]: its only data member is [node_]. *)
Record BasicIterator (V : access) : Type := Iter { node_ : NodePtr }.
Arguments Iter {V} _.
Arguments node_ {V} _.

Abbreviation Iterator := (BasicIterator Mutable).
Abbreviation ConstIterator := (BasicIterator ReadOnly).

(** [size_t] is taken to be 64 bits wide. *)
Definition size_t_modulus : Z := 2 ^ 64.

(** A [Node] holds at least a pointer, so fewer than [2^61] of them fit in a
    64-bit address space: [new] cannot return more live nodes than that. *)
Definition max_nodes : Z := 2 ^ 61.

Section SingleLinkedList.

(** The element type, with the value that default-initialisation of
    [Node::value] yields ([Node() = default] is what builds [head_]). *)
Context {T : Type} (dflt : T).

(** The element type's [operator==] and [operator<], used by the free
    comparison operators of the container. *)
Context (T_eq T_lt : T → T → bool).

(** Whether the translation unit is compiled with [NDEBUG], which removes
    [assert]. *)
Context (NDEBUG : bool).

(** ** Objects *)

Record Node : Type := mkNode { value : T; next_node : NodePtr }.

(** The data members of a [SingleLinkedList] object. *)
Record SingleLinkedList : Type := mkList { head_ : Node; size_ : Z }.

(** The store: live heap nodes, live container objects, and how many nodes
    the allocator is able to keep live at once before [new] throws. *)
Record Store : Type := mkStore {
  heap : gmap positive Node;
  objs : gmap positive SingleLinkedList;
  mem_limit : Z
}.

Definition with_heap (h : gmap positive Node) (s : Store) : Store :=
  {| heap := h; objs := objs s; mem_limit := mem_limit s |}.

Definition with_objs (o : gmap positive SingleLinkedList) (s : Store) : Store :=
  {| heap := heap s; objs := o; mem_limit := mem_limit s |}.

(** ** Outcomes and the monad *)

Inductive outcome (A : Type) : Type :=
| Ok (a : A) (s : Store)     (* normal return *)
| Throw (s : Store)          (* std::bad_alloc leaves the call *)
| Undefined                  (* null or dangling pointer access *)
| Aborted                      (* failed assert, or std::terminate *)
| OutOfFuel.                 (* the loop bound of the model was reached *)
Arguments Ok {A} _ _.
Arguments Throw {A} _.
Arguments Undefined {A}.
Arguments Aborted {A}.
Arguments OutOfFuel {A}.

Definition M (A : Type) : Type := Store → outcome A.

Definition ret {A} (a : A) : M A := λ s, Ok a s.

Definition bind {A B} (m : M A) (k : A → M B) : M B := λ s,
  match m s with
  | Ok a s' => k a s'
  | Throw s' => Throw s'
  | Undefined => Undefined
  | Aborted => Aborted
  | OutOfFuel => OutOfFuel
  end.

Notation "'let!' x := m 'in' k" := (bind m (λ x, k))
  (at level 10, x name, m at level 100, k at level 200,
   format "'[v' 'let!'  x  :=  m  'in' '/' k ']'").

Notation "m >>> k" := (bind m (λ _, k))
  (at level 100, k at level 200, right associativity).

(** A function declared [noexcept]: an exception that would leave it calls
    [std::terminate]. *)
Definition noexcept {A} (m : M A) : M A := λ s,
  match m s with
  | Throw _ => Aborted
  | o => o
  end.

(** [assert(b)]. *)
Definition assert_ (b : bool) : M unit :=
  if NDEBUG then ret tt else if b then ret tt else λ _, Aborted.

Definition when (b : bool) (m : M unit) : M unit := if b then m else ret tt.

(** ** Memory accesses *)

(** The node [p] points to, when it points to a live one. *)
Definition node_at (s : Store) (p : NodePtr) : option Node :=
  match p with
  | nullptr => None
  | heap_node a => heap s !! a
  | head_of c => match objs s !! c with Some o => Some (head_ o) | None => None end
  end.

(** Reading [*p] for [p : Node*]. *)
Definition read (p : NodePtr) : M Node := λ s,
  match node_at s p with Some nd => Ok nd s | None => Undefined end.

(** Overwriting [*p]. *)
Definition write (p : NodePtr) (nd : Node) : M unit := λ s,
  match p with
  | nullptr => Undefined
  | heap_node a =>
      match heap s !! a with
      | Some _ => Ok tt (with_heap (<[a := nd]> (heap s)) s)
      | None => Undefined
      end
  | head_of c =>
      match objs s !! c with
      | Some o =>
          Ok tt (with_objs (<[c := {| head_ := nd; size_ := size_ o |}]> (objs s)) s)
      | None => Undefined
      end
  end.

(** [p->next_node], [p->value], [p->next_node = q]. *)
Definition get_next (p : NodePtr) : M NodePtr :=
  let! nd := read p in ret (next_node nd).

Definition get_value (p : NodePtr) : M T :=
  let! nd := read p in ret (value nd).

Definition set_next (p q : NodePtr) : M unit :=
  let! nd := read p in write p {| value := value nd; next_node := q |}.

(** [size_] of the container object at [c]. *)
Definition get_size (c : positive) : M Z := λ s,
  match objs s !! c with Some o => Ok (size_ o) s | None => Undefined end.

Definition set_size (c : positive) (n : Z) : M unit := λ s,
  match objs s !! c with
  | Some o => Ok tt (with_objs (<[c := {| head_ := head_ o; size_ := n |}]> (objs s)) s)
  | None => Undefined
  end.

(** [++size_] and [--size_] on a [size_t]. *)
Definition incr_size (c : positive) : M unit :=
  let! n := get_size c in set_size c ((n + 1) mod size_t_modulus)%Z.

Definition decr_size (c : positive) : M unit :=
  let! n := get_size c in set_size c ((n - 1) mod size_t_modulus)%Z.

(** Whether [new Node] succeeds in this store. *)
Definition can_allocate (s : Store) : bool :=
  bool_decide (Z.of_nat (size (heap s)) < Z.min (mem_limit s) max_nodes)%Z.

(** [new Node(v, next)]: an unused address, or [std::bad_alloc].  Which
    unused address is returned is the allocator's business; the proofs below
    use only that it is not the address of a live node. *)
Definition operator_new (nd : Node) : M NodePtr := λ s,
  if can_allocate s then
    let a := fresh (dom (heap s)) in
    Ok (heap_node a) (with_heap (<[a := nd]> (heap s)) s)
  else Throw s.

(** [delete p]. *)
Definition operator_delete (p : NodePtr) : M unit := λ s,
  match p with
  | nullptr => Ok tt s
  | heap_node a =>
      match heap s !! a with
      | Some _ => Ok tt (with_heap (delete a (heap s)) s)
      | None => Undefined
      end
  | head_of _ => Undefined
  end.

(** ** [BasicIterator] *)

(** [BasicIterator(const BasicIterator<Type>& other) noexcept].  [node_]
    starts out as its default member initialiser [nullptr]; when that differs
    from [other.node_] a node is allocated, and its address is overwritten by
    the unconditional assignment that follows. *)
Definition BasicIterator_from_mutable {V} (other : Iterator) : M (BasicIterator V) :=
  noexcept (
    let node0 := nullptr in
    when (bool_decide (node0 ≠ node_ other))
      (let! v := get_value (node_ other) in
       let! n := get_next (node_ other) in
       let! node1 := operator_new {| value := v; next_node := n |} in
       ret tt) >>>
    ret (Iter (node_ other))).

(** Copy construction.  For [Iterator] the constructor above is the copy
    constructor; [ConstIterator] gets the implicit member-wise one. *)
Definition BasicIterator_copy {V} : BasicIterator V → M (BasicIterator V) :=
  match V with
  | Mutable => λ other, BasicIterator_from_mutable other
  | ReadOnly => λ other, ret other
  end.

(** [operator==] and [operator!=] of cursors, for either flavour of [rhs]. *)
Definition iter_eq {V W} (lhs : BasicIterator V) (rhs : BasicIterator W) : bool :=
  bool_decide (node_ lhs = node_ rhs).

Definition iter_ne {V W} (lhs : BasicIterator V) (rhs : BasicIterator W) : bool :=
  bool_decide (node_ lhs ≠ node_ rhs).

(** [operator++()]: returns the new state of [*this]. *)
Definition pre_increment {V} (it : BasicIterator V) : M (BasicIterator V) :=
  noexcept (
    if bool_decide (node_ it ≠ nullptr)
    then let! n := get_next (node_ it) in ret (Iter n)
    else ret it).

(** [operator++(int)]: returns the copy [old_value] and the new state of
    [*this].  The [return old_value] is taken to construct the result in
    place, as compilers do for a named local; without that elision one more
    copy would be made. *)
Definition post_increment {V} (it : BasicIterator V)
  : M (BasicIterator V * BasicIterator V) :=
  noexcept (
    let! old_value := BasicIterator_copy it in
    let! it' := pre_increment it in
    ret (old_value, it')).

(** [operator*]. *)
Definition deref {V} (it : BasicIterator V) : M T :=
  noexcept (get_value (node_ it)).

(** ** [SingleLinkedList]: queries, front operations, cursors *)

Definition GetSize (this : positive) : M Z := get_size this.

Definition IsEmpty (this : positive) : M bool :=
  let! n := get_size this in ret (bool_decide (n = 0%Z)).

Definition PushFront (this : positive) (v : T) : M unit :=
  let! h := get_next (head_of this) in
  let! n := operator_new {| value := v; next_node := h |} in
  set_next (head_of this) n >>>
  incr_size this.

Definition PopFront (this : positive) : M unit :=
  noexcept (
    let! e := IsEmpty this in
    assert_ (negb e) >>>
    let! tmp := get_next (head_of this) in
    let! n := get_next tmp in
    set_next (head_of this) n >>>
    operator_delete tmp >>>
    decr_size this).

Fixpoint Clear_loop (fuel : nat) (this : positive) : M unit :=
  match fuel with
  | O => λ _, OutOfFuel
  | S fuel' =>
      let! h := get_next (head_of this) in
      if bool_decide (h ≠ nullptr) then
        let tmp := h in
        let! n := get_next tmp in
        set_next (head_of this) n >>>
        operator_delete tmp >>>
        Clear_loop fuel' this
      else ret tt
  end.

Definition Clear (fuel : nat) (this : positive) : M unit :=
  noexcept (Clear_loop fuel this >>> set_size this 0%Z).

Definition begin {V} (this : positive) : M (BasicIterator V) :=
  let! h := get_next (head_of this) in ret (Iter h).

Definition end_ {V} (this : positive) : M (BasicIterator V) :=
  ret (Iter nullptr).

Definition cbegin (this : positive) : M ConstIterator := begin this.
Definition cend (this : positive) : M ConstIterator := end_ this.

Definition before_begin {V} (this : positive) : M (BasicIterator V) :=
  ret (Iter (head_of this)).

Definition cbefore_begin (this : positive) : M ConstIterator :=
  before_begin this.

(** Passing a cursor for a parameter of type [ConstIterator]: an [Iterator]
    goes through the converting constructor, a [ConstIterator] initialises
    the parameter directly. *)
Definition as_ConstIterator {V} : BasicIterator V → M ConstIterator :=
  match V with
  | Mutable => λ it, BasicIterator_from_mutable it
  | ReadOnly => λ it, ret it
  end.

(** ** Structural mutation by position *)

Definition InsertAfter (this : positive) (pos : ConstIterator) (v : T) : M Iterator :=
  let! n := get_next (node_ pos) in
  let! new_node := operator_new {| value := v; next_node := n |} in
  set_next (node_ pos) new_node >>>
  incr_size this >>>
  ret (Iter new_node).

Definition EraseAfter (this : positive) (pos : ConstIterator) : M Iterator :=
  noexcept (
    let! e := IsEmpty this in
    when (negb e)
      (let! tmp := get_next (node_ pos) in
       let! n := get_next tmp in
       set_next (node_ pos) n >>>
       operator_delete tmp >>>
       decr_size this) >>>
    let! r := get_next (node_ pos) in
    ret (Iter r)).

(** ** Construction, copy, swap, destruction *)

(** The storage of the object at [this] stops existing: the end of a
    destructor, or of a constructor left by an exception. *)
Definition release (this : positive) : M unit := λ s,
  Ok tt (with_objs (delete this (objs s)) s).

(** A constructor body run on storage at [this]: when it throws, the object
    never came to life and its storage is gone (nodes it had already linked
    are not freed: no destructor runs). *)
Definition constructing {A} (this : positive) (body : M A) : M A := λ s,
  match body s with
  | Throw s' => Throw (with_objs (delete this (objs s')) s')
  | o => o
  end.

(** Member initialisation: [head_] from [Node() = default], [size_] from the
    constructor's initialiser. *)
Definition init_members (this : positive) (n : Z) : M unit := λ s,
  Ok tt (with_objs
           (<[this := {| head_ := {| value := dflt; next_node := nullptr |};
                         size_ := n |}]> (objs s)) s).

(** [SingleLinkedList()]. *)
Definition construct_default (this : positive) : M unit :=
  constructing this (
    init_members this 0%Z >>>
    set_next (head_of this) nullptr).

(** One iteration of the body of the loop in [Assign], after [*it] was read
    into [x]; returns the new [last_new].  Reading [*it] leaves the store as
    it is, so reading it before or after the allocation makes a difference
    only when the read itself is undefined. *)
Definition Assign_step (this : positive) (x : T) (last_new : NodePtr) : M NodePtr :=
  let! node := operator_new {| value := x; next_node := nullptr |} in
  let! h := get_next (head_of this) in
  (if bool_decide (h = nullptr)
   then set_next (head_of this) node
   else set_next last_new node) >>>
  ret node.

(** [Assign(values.begin(), values.end())] over the array of an
    [std::initializer_list]. *)
Fixpoint Assign_values (this : positive) (values : list T) (last_new : NodePtr) : M unit :=
  match values with
  | [] => ret tt
  | x :: rest =>
      let! node := Assign_step this x last_new in
      Assign_values this rest node
  end.

(** [Assign(first, last)] over two [ConstIterator]s. *)
Fixpoint Assign_iter (fuel : nat) (this : positive) (it last : ConstIterator)
    (last_new : NodePtr) : M unit :=
  match fuel with
  | O => λ _, OutOfFuel
  | S fuel' =>
      if iter_ne it last then
        let! x := deref it in
        let! node := Assign_step this x last_new in
        let! it' := pre_increment it in
        Assign_iter fuel' this it' last node
      else ret tt
  end.

(** [SingleLinkedList(std::initializer_list<Type> values)]. *)
Definition construct_from_values (this : positive) (values : list T) : M unit :=
  constructing this (
    init_members this (Z.of_nat (length values)) >>>
    Assign_values this values nullptr).

(** [SingleLinkedList(const SingleLinkedList& other)]. *)
Definition construct_copy (fuel : nat) (this other : positive) : M unit :=
  constructing this (
    let! n := GetSize other in
    init_members this n >>>
    let! first := begin other in
    let! last := end_ other in
    Assign_iter fuel this first last nullptr).

(** [~SingleLinkedList()]. *)
Definition destroy (fuel : nat) (this : positive) : M unit :=
  Clear fuel this >>> release this.

(** [swap]: two [std::swap]s, on the head links and on the sizes. *)
Definition swap (this other : positive) : M unit :=
  noexcept (
    let! a := get_next (head_of this) in
    let! b := get_next (head_of other) in
    set_next (head_of this) b >>>
    set_next (head_of other) a >>>
    let! n := get_size this in
    let! m := get_size other in
    set_size this m >>>
    set_size other n).

(** Storage for a local object: an address no live container object has. *)
Definition local_object : M positive := λ s, Ok (fresh (dom (objs s))) s.

(** [operator=(const SingleLinkedList& rhs)]. *)
Definition operator_assign (fuel : nat) (this rhs : positive) : M unit :=
  when (bool_decide (this ≠ rhs))
    (let! temp := local_object in
     construct_copy fuel temp rhs >>>
     swap this temp >>>
     destroy fuel temp).

(** ** Free comparison operators *)

(** [std::equal(first1, last1, first2, last2)] on forward iterators. *)
Fixpoint std_equal (fuel : nat) (first1 last1 first2 last2 : ConstIterator) : M bool :=
  match fuel with
  | O => λ _, OutOfFuel
  | S fuel' =>
      if iter_ne first1 last1 && iter_ne first2 last2 then
        let! x := deref first1 in
        let! y := deref first2 in
        if negb (T_eq x y) then ret false
        else
          let! first1' := pre_increment first1 in
          let! first2' := pre_increment first2 in
          std_equal fuel' first1' last1 first2' last2
      else ret (iter_eq first1 last1 && iter_eq first2 last2)
  end.

(** [std::lexicographical_compare(first1, last1, first2, last2)]. *)
Fixpoint std_lexicographical_compare (fuel : nat)
    (first1 last1 first2 last2 : ConstIterator) : M bool :=
  match fuel with
  | O => λ _, OutOfFuel
  | S fuel' =>
      if iter_ne first1 last1 && iter_ne first2 last2 then
        let! x := deref first1 in
        let! y := deref first2 in
        if T_lt x y then ret true
        else if T_lt y x then ret false
        else
          let! first1' := pre_increment first1 in
          let! first2' := pre_increment first2 in
          std_lexicographical_compare fuel' first1' last1 first2' last2
      else ret (iter_eq first1 last1 && iter_ne first2 last2)
  end.

Definition operator_eq (fuel : nat) (lhs rhs : positive) : M bool :=
  let! b1 := begin lhs in
  let! e1 := end_ lhs in
  let! b2 := begin rhs in
  let! e2 := end_ rhs in
  std_equal fuel b1 e1 b2 e2.

Definition operator_ne (fuel : nat) (lhs rhs : positive) : M bool :=
  let! r := operator_eq fuel lhs rhs in ret (negb r).

Definition operator_lt (fuel : nat) (lhs rhs : positive) : M bool :=
  let! n := GetSize lhs in
  let! m := GetSize rhs in
  if bool_decide (n < m)%Z then ret true
  else
    let! n' := GetSize lhs in
    let! m' := GetSize rhs in
    if bool_decide (n' > m')%Z then ret false
    else
      let! b1 := begin lhs in
      let! e1 := end_ lhs in
      let! b2 := begin rhs in
      let! e2 := end_ rhs in
      std_lexicographical_compare fuel b1 e1 b2 e2.

Definition operator_le (fuel : nat) (lhs rhs : positive) : M bool :=
  let! r := operator_lt fuel rhs lhs in ret (negb r).

Definition operator_gt (fuel : nat) (lhs rhs : positive) : M bool :=
  operator_lt fuel rhs lhs.

Definition operator_ge (fuel : nat) (lhs rhs : positive) : M bool :=
  let! r := operator_lt fuel lhs rhs in ret (negb r).

(** ** Observing a container *)

(** Following [next_node] links from [p] until the null pointer.  A link
    that leaves the heap, or that leads back into a sentinel, is no chain of
    real cells; neither is one longer than [fuel]. *)
Fixpoint walk (h : gmap positive Node) (fuel : nat) (p : NodePtr)
  : option (list (positive * T)) :=
  match p with
  | nullptr => Some []
  | head_of _ => None
  | heap_node a =>
      match fuel with
      | O => None
      | S fuel' =>
          match h !! a with
          | None => None
          | Some nd =>
              match walk h fuel' (next_node nd) with
              | Some rest => Some ((a, value nd) :: rest)
              | None => None
              end
          end
      end
  end.

(** The real cells of the container at [this], in order: addresses and
    values.  A chain without a cycle is no longer than the heap is large. *)
Definition cells_of (s : Store) (this : positive) : option (list (positive * T)) :=
  match objs s !! this with
  | Some o => walk (heap s) (size (heap s)) (next_node (head_ o))
  | None => None
  end.

(** The element sequence of the container. *)
Definition elements (s : Store) (this : positive) : option (list T) :=
  match cells_of s this with Some cells => Some cells.*2 | None => None end.

(** The number of real cells reachable from the sentinel. *)
Definition reachable_cells (s : Store) (this : positive) : option nat :=
  match cells_of s this with Some cells => Some (length cells) | None => None end.

(** The cached count, read off the object. *)
Definition size_of (s : Store) (this : positive) : option Z :=
  match objs s !! this with Some o => Some (size_ o) | None => None end.

(** ** The representation invariant *)

Definition first_ptr (cells : list (positive * T)) (e : NodePtr) : NodePtr :=
  match cells with
  | [] => e
  | (a, _) :: _ => heap_node a
  end.

(** [cells] are linked one to the next in [h], the last one to [e]. *)
Fixpoint is_seg (h : gmap positive Node) (cells : list (positive * T)) (e : NodePtr) : Prop :=
  match cells with
  | [] => True
  | (a, v) :: rest =>
      h !! a = Some {| value := v; next_node := first_ptr rest e |}
      ∧ is_seg h rest e
  end.

(** The invariants of section 3 of the specification, for the container
    object at [this] with real cells [cells]: the sentinel links to the
    first cell, the cells are chained up to the null pointer, no cell occurs
    twice, and [size_] is their number. *)
Record wf_list (s : Store) (this : positive) (cells : list (positive * T)) : Prop := {
  wf_obj : ∃ o, objs s !! this = Some o
                ∧ next_node (head_ o) = first_ptr cells nullptr
                ∧ size_ o = Z.of_nat (length cells);
  wf_chain : is_seg (heap s) cells nullptr;
  wf_nodup : NoDup cells.*1;
  wf_heap : (Z.of_nat (size (heap s)) ≤ max_nodes)%Z
}.

(** A cursor that belongs to the container: at the sentinel or at one of
    its real cells. *)
Definition belongs (this : positive) (cells : list (positive * T)) (p : NodePtr) : Prop :=
  p = head_of this ∨ ∃ a, p = heap_node a ∧ a ∈ cells.*1.

(** The pointer to the last cell of [pre], the sentinel when [pre] is
    empty: the position right before what follows [pre] in the chain. *)
Definition last_ptr (this : positive) (pre : list (positive * T)) : NodePtr :=
  match last pre with
  | Some (b, _) => heap_node b
  | None => head_of this
  end.

(** [s'] differs from [s] at most in the container object at [this], in
    the heap cells at the addresses [A], and in heap cells that were not
    live in [s]. *)
Definition modifies (this : positive) (A : list positive) (s s' : Store) : Prop :=
  mem_limit s' = mem_limit s
  ∧ (∀ c, c ≠ this → objs s' !! c = objs s !! c)
  ∧ (∀ a, a ∉ A → is_Some (heap s !! a) → heap s' !! a = heap s !! a).

(** The chain of the container at [this]: the invariant without what it
    says about [size_] and about the size of the heap. *)
Definition linked (s : Store) (this : positive) (cells : list (positive * T)) : Prop :=
  ∃ o, objs s !! this = Some o
       ∧ next_node (head_ o) = first_ptr cells nullptr
       ∧ is_seg (heap s) cells nullptr
       ∧ NoDup cells.*1.

(** From [st] to [st'] the chain of the container at [this] grew from [cd]
    to [cd ++ cd'] by cells that are new, and nothing else changed but the
    cells of [cd]. *)
Record extends (this : positive) (cd cd' : list (positive * T)) (st st' : Store) : Prop := {
  ext_obj : ∃ o o', objs st !! this = Some o
                    ∧ objs st' = <[this := o']> (objs st)
                    ∧ size_ o' = size_ o;
  ext_linked : linked st' this (cd ++ cd');
  ext_fresh : ∀ a, a ∈ cd'.*1 → heap st !! a = None;
  ext_frame : ∀ a, a ∉ cd.*1 → is_Some (heap st !! a) → heap st' !! a = heap st !! a;
  ext_size : size (heap st') = size (heap st) + length cd';
  ext_limit : mem_limit st' = mem_limit st
}.

(** A property of the store a computation leaves, by return or by throw. *)
Definition on_exit {A} (P : Store → Prop) (o : outcome A) : Prop :=
  match o with
  | Ok _ s' => P s'
  | Throw s' => P s'
  | _ => True
  end.

(** ** Sequences of mutations *)

Inductive mutation : Type :=
| DoPushFront (v : T)
| DoPopFront
| DoInsertAfter (pos : ConstIterator) (v : T)
| DoEraseAfter (pos : ConstIterator).

Definition run_mutation (this : positive) (m : mutation) : M unit :=
  match m with
  | DoPushFront v => PushFront this v
  | DoPopFront => PopFront this
  | DoInsertAfter pos v => InsertAfter this pos v >>> ret tt
  | DoEraseAfter pos => EraseAfter this pos >>> ret tt
  end.

(** The preconditions of sections 4.2 and 4.4: [PopFront] wants a non-empty
    container, [InsertAfter] a cursor of this container at the sentinel or
    at a real cell, [EraseAfter] such a cursor at a cell that has a
    successor. *)
Definition precondition (s : Store) (this : positive) (m : mutation) : Prop :=
  match m with
  | DoPushFront _ => True
  | DoPopFront => ∃ n, size_of s this = Some n ∧ n ≠ 0%Z
  | DoInsertAfter pos _ =>
      ∃ cells, cells_of s this = Some cells ∧ belongs this cells (node_ pos)
  | DoEraseAfter pos =>
      ∃ cells, cells_of s this = Some cells ∧ belongs this cells (node_ pos)
               ∧ ∃ nd a, node_at s (node_ pos) = Some nd
                         ∧ next_node nd = heap_node a
  end.

(** One mutation of the container at [this], returning or throwing. *)
Inductive step (this : positive) : Store → Store → Prop :=
| step_return m s s' :
    precondition s this m → run_mutation this m s = Ok tt s' → step this s s'
| step_throw m s s' :
    precondition s this m → run_mutation this m s = Throw s' → step this s s'.

(** A container right after its construction, by the default constructor
    or from an initializer list. *)
Inductive constructed (this : positive) : Store → Prop :=
| constructed_default s0 s1 :
    (Z.of_nat (size (heap s0)) ≤ max_nodes)%Z →
    construct_default this s0 = Ok tt s1 →
    constructed this s1
| constructed_from_values values s0 s1 :
    (Z.of_nat (size (heap s0)) ≤ max_nodes)%Z →
    construct_from_values this values s0 = Ok tt s1 →
    constructed this s1.

(** The states a container goes through: constructed, then mutated any
    number of times, each time under the precondition of the call. *)
Definition reachable (this : positive) (s : Store) : Prop :=
  ∃ s1, constructed this s1 ∧ rtc (step this) s1 s.

(** ** The ordering and the equality of section 4.5, in the words of the
    specification *)

(** Two elements the ordering does not tell apart. *)
Definition same_rank (x y : T) : Prop := T_lt x y = false ∧ T_lt y x = false.

(** "Shorter length sorts first; equal lengths compare elementwise in order
    using the element type's ordering, first differing element decides." *)
Definition first_difference_less (la lb : list T) : Prop :=
  ∃ i x y, la !! i = Some x ∧ lb !! i = Some y ∧ T_lt x y = true
           ∧ ∀ j u v, j < i → la !! j = Some u → lb !! j = Some v → same_rank u v.

Definition spec_less (la lb : list T) : Prop :=
  length la < length lb
  ∨ (length la = length lb ∧ first_difference_less la lb).

(** "Equal iff they have the same length and elementwise-equal values in
    order." *)
Definition spec_equal (la lb : list T) : Prop :=
  length la = length lb
  ∧ ∀ i x y, la !! i = Some x → lb !! i = Some y → T_eq x y = true.

(** ** Reading outcomes *)

Definition returned {A} (o : outcome A) : option A :=
  match o with Ok a _ => Some a | _ => None end.

Definition final_store {A} (o : outcome A) : option Store :=
  match o with Ok _ s => Some s | Throw s => Some s | _ => None end.

Definition empty_store (limit : Z) : Store :=
  {| heap := ∅; objs := ∅; mem_limit := limit |}.

(** The store a computation leaves, by return or by throw. *)
Definition after {A} (m : M A) (s : Store) : Store :=
  match final_store (m s) with Some s' => s' | None => s end.

(** The call [InsertAfter(before_begin(), v)], with the overload of
    [before_begin] that yields a cursor of flavour [V]. *)
Definition InsertAfter_before_begin (V : access) (this : positive) (v : T) : M Iterator :=
  let! it := before_begin (V:=V) this in
  let! pos := as_ConstIterator it in
  InsertAfter this pos v.

(** How many more nodes [new] can return before it throws. *)
Definition room (s : Store) : nat :=
  Z.to_nat (Z.min (mem_limit s) max_nodes - Z.of_nat (size (heap s))).

(** The free function [swap(lhs, rhs)]. *)
Definition swap_free (lhs rhs : positive) : M unit :=
  noexcept (swap lhs rhs).

(** [++it] done [n] times over. *)
Fixpoint increment_n {V} (n : nat) (it : BasicIterator V) : M (BasicIterator V) :=
  match n with
  | O => ret it
  | S n' => let! it' := pre_increment it in increment_n n' it'
  end.

End SingleLinkedList.

Arguments Ok {T A} _ _.
Arguments Throw {T A} _.
Arguments Undefined {T A}.
Arguments Aborted {T A}.
Arguments OutOfFuel {T A}.

(** ** Containers of integers, for the examples *)

(** The store holding one container, at address 1, built from the
    initializer list [la], with room for [limit] nodes. *)
Definition one_list (limit : Z) (la : list Z) : Store (T:=Z) :=
  after (construct_from_values 0%Z 1 la) (empty_store limit).

(** The store in which the containers at addresses 1 and 2 were built from
    the initializer lists [la] and [lb]. *)
Definition two_lists (limit : Z) (la lb : list Z) : Store (T:=Z) :=
  after (construct_from_values 0%Z 2 lb) (one_list limit la).

(** The same store with room for [limit] nodes only. *)
Definition with_limit (limit : Z) (s : Store (T:=Z)) : Store (T:=Z) :=
  {| heap := heap s; objs := objs s; mem_limit := limit |}.

(** The invariant of a concrete store, by evaluation. *)
Ltac concrete_wf :=
  split;
  [ eexists; split; [vm_compute; reflexivity|split; vm_compute; reflexivity]
  | vm_compute; repeat split
  | apply (bool_decide_unpack _); vm_compute; exact I
  | vm_compute; discriminate ].

(** * Verification *)

Section Verification.

#[local] Set Default Proof Using "Type".

Context {T : Type} (dflt : T) (T_eq T_lt : T → T → bool) (NDEBUG : bool).

Implicit Types (s : Store (T:=T)) (h : gmap positive (Node (T:=T))).
Implicit Types (cells pre post cd cc rest : list (positive * T)).
Implicit Types (p q e last_new : NodePtr) (st : Store (T:=T)).
Implicit Types (this other : positive) (nd : Node (T:=T)).

(** ** Running the monad *)

Lemma bind_Ok {A B} (m : M A) (k : A → M B) s a s' :
  m s = Ok a s' → bind m k s = k a s'.
Proof. intros E. unfold bind. by rewrite E. Qed.

Lemma bind_Throw {A B} (m : M (T:=T) A) (k : A → M B) s s' :
  m s = Throw s' → bind m k s = Throw s'.
Proof. intros E. unfold bind. by rewrite E. Qed.

Lemma read_eq s p nd : node_at s p = Some nd → read p s = Ok nd s.
Proof. intros E. unfold read. by rewrite E. Qed.

Lemma get_next_eq s p nd :
  node_at s p = Some nd → get_next p s = Ok (next_node nd) s.
Proof. intros E. unfold get_next. by rewrite (bind_Ok _ _ _ _ _ (read_eq _ _ _ E)). Qed.

Lemma node_at_head s c o : objs s !! c = Some o → node_at s (head_of c) = Some (head_ o).
Proof. intros E. simpl. by rewrite E. Qed.

Lemma begin_eq {V} s c o :
  objs s !! c = Some o → begin (V:=V) c s = Ok (Iter (next_node (head_ o))) s.
Proof.
  intros E. unfold begin.
  by rewrite (bind_Ok _ _ _ _ _ (get_next_eq _ _ _ (node_at_head _ _ _ E))).
Qed.

Lemma get_next_pure s p q s' : get_next p s = Ok q s' → s' = s.
Proof.
  unfold get_next, bind, read. destruct (node_at s p); [|done].
  unfold ret. by intros [= _ <-].
Qed.

Lemma get_value_eq s p nd :
  node_at s p = Some nd → get_value p s = Ok (value nd) s.
Proof. intros E. unfold get_value. by rewrite (bind_Ok _ _ _ _ _ (read_eq _ _ _ E)). Qed.

Lemma set_next_head s c o q :
  objs s !! c = Some o →
  set_next (head_of c) q s
  = Ok tt (with_objs (<[c := {| head_ := {| value := value (head_ o); next_node := q |};
                                 size_ := size_ o |}]> (objs s)) s).
Proof.
  intros E. unfold set_next.
  rewrite (bind_Ok _ _ s (head_ o) s); [|by apply read_eq; simpl; rewrite E].
  unfold write. by rewrite E.
Qed.

Lemma set_next_heap s a nd q :
  heap s !! a = Some nd →
  set_next (heap_node a) q s
  = Ok tt (with_heap (<[a := {| value := value nd; next_node := q |}]> (heap s)) s).
Proof.
  intros E. unfold set_next.
  rewrite (bind_Ok _ _ s nd s); [|by apply read_eq].
  unfold write. by rewrite E.
Qed.

Lemma get_size_eq s c o : objs s !! c = Some o → get_size c s = Ok (size_ o) s.
Proof. intros E. unfold get_size. by rewrite E. Qed.

Lemma set_size_eq s c o n :
  objs s !! c = Some o →
  set_size c n s
  = Ok tt (with_objs (<[c := {| head_ := head_ o; size_ := n |}]> (objs s)) s).
Proof. intros E. unfold set_size. by rewrite E. Qed.

Lemma incr_size_eq s c o :
  objs s !! c = Some o →
  incr_size c s
  = Ok tt (with_objs (<[c := {| head_ := head_ o;
                                 size_ := ((size_ o + 1) mod size_t_modulus)%Z |}]>
                        (objs s)) s).
Proof.
  intros E. unfold incr_size.
  rewrite (bind_Ok _ _ _ _ _ (get_size_eq _ _ _ E)). by apply set_size_eq.
Qed.

Lemma decr_size_eq s c o :
  objs s !! c = Some o →
  decr_size c s
  = Ok tt (with_objs (<[c := {| head_ := head_ o;
                                 size_ := ((size_ o - 1) mod size_t_modulus)%Z |}]>
                        (objs s)) s).
Proof.
  intros E. unfold decr_size.
  rewrite (bind_Ok _ _ _ _ _ (get_size_eq _ _ _ E)). by apply set_size_eq.
Qed.

Lemma IsEmpty_eq s c o :
  objs s !! c = Some o → IsEmpty c s = Ok (bool_decide (size_ o = 0%Z)) s.
Proof.
  intros E. unfold IsEmpty. by rewrite (bind_Ok _ _ _ _ _ (get_size_eq _ _ _ E)).
Qed.

Lemma operator_new_ok s nd :
  can_allocate s = true →
  operator_new nd s
  = Ok (heap_node (fresh (dom (heap s))))
       (with_heap (<[fresh (dom (heap s)) := nd]> (heap s)) s).
Proof. intros E. unfold operator_new. by rewrite E. Qed.

Lemma operator_new_throw s nd :
  can_allocate s = false → operator_new nd s = Throw s.
Proof. intros E. unfold operator_new. by rewrite E. Qed.

Lemma operator_delete_heap s a nd :
  heap s !! a = Some nd →
  operator_delete (heap_node a) s = Ok tt (with_heap (delete a (heap s)) s).
Proof. intros E. unfold operator_delete. by rewrite E. Qed.

Lemma fresh_heap_None s : heap s !! fresh (dom (heap s)) = None.
Proof. apply not_elem_of_dom, is_fresh. Qed.

Lemma noexcept_Ok {A} (m : M (T:=T) A) s a s' :
  m s = Ok a s' → noexcept m s = Ok a s'.
Proof. intros E. unfold noexcept. by rewrite E. Qed.

(** ** Chains of cells *)

Lemma first_ptr_app pre post e :
  first_ptr (pre ++ post) e = first_ptr pre (first_ptr post e).
Proof. by destruct pre as [|[??]?]. Qed.

Lemma is_seg_app h pre post e :
  is_seg h (pre ++ post) e ↔ is_seg h pre (first_ptr post e) ∧ is_seg h post e.
Proof.
  induction pre as [|[a v] pre IH]; simpl.
  - split; [by intros ?; split|by intros [_ ?]].
  - rewrite first_ptr_app. split.
    + intros [Ha Hrest]. apply IH in Hrest as [Hpre Hpost]. by split.
    + intros [[Ha Hpre] Hpost]. split; [done|]. apply IH. by split.
Qed.

Lemma is_seg_frame h h' cells e :
  (∀ a, a ∈ cells.*1 → h' !! a = h !! a) → is_seg h cells e → is_seg h' cells e.
Proof.
  induction cells as [|[a v] cells IH]; simpl; [done|].
  intros Hf [H1 H2]. split.
  - rewrite Hf; [done|]. apply list_elem_of_here.
  - apply IH; [|done]. intros b Hb. apply Hf. by apply list_elem_of_further.
Qed.

Lemma is_seg_live h cells e a :
  is_seg h cells e → a ∈ cells.*1 → is_Some (h !! a).
Proof.
  induction cells as [|[b v] cells IH]; simpl.
  - intros _ Hin. by apply elem_of_nil in Hin.
  - intros [H1 H2] Hin. apply elem_of_cons in Hin as [->|Hin]; eauto.
Qed.

Lemma is_seg_length h cells e :
  is_seg h cells e → NoDup cells.*1 → length cells ≤ size h.
Proof.
  intros Hseg Hnd.
  rewrite <- (length_fmap fst cells), <- (size_list_to_set (C:=gset positive)) by done.
  rewrite <- (size_dom (D:=gset positive)).
  apply subseteq_size. intros a Ha.
  apply elem_of_list_to_set in Ha. apply elem_of_dom. by eapply is_seg_live.
Qed.

Lemma walk_seg h cells fuel :
  is_seg h cells nullptr → length cells ≤ fuel →
  walk h fuel (first_ptr cells nullptr) = Some cells.
Proof.
  revert fuel. induction cells as [|[a v] cells IH]; intros fuel; simpl.
  - by destruct fuel.
  - intros [H1 H2] Hlen. destruct fuel as [|fuel]; [lia|]. simpl.
    rewrite H1. simpl. rewrite IH; [done|done|lia].
Qed.

(** ** What the invariant says about the observers *)

Lemma wf_cells_of s this cells : wf_list s this cells → cells_of s this = Some cells.
Proof.
  intros [(o & Ho & Hn & _) Hseg Hnd _]. unfold cells_of. rewrite Ho, Hn.
  apply walk_seg; [done|]. by eapply is_seg_length.
Qed.

Lemma wf_elements s this cells : wf_list s this cells → elements s this = Some cells.*2.
Proof. intros H. unfold elements. by rewrite (wf_cells_of _ _ _ H). Qed.

Lemma wf_reachable_cells s this cells :
  wf_list s this cells → reachable_cells s this = Some (length cells).
Proof. intros H. unfold reachable_cells. by rewrite (wf_cells_of _ _ _ H). Qed.

Lemma wf_size_of s this cells :
  wf_list s this cells → size_of s this = Some (Z.of_nat (length cells)).
Proof. intros [(o & Ho & _ & Hs) _ _ _]. unfold size_of. by rewrite Ho, Hs. Qed.

Lemma wf_GetSize s this cells :
  wf_list s this cells → GetSize this s = Ok (Z.of_nat (length cells)) s.
Proof.
  intros [(o & Ho & _ & Hs) _ _ _]. unfold GetSize.
  by rewrite (get_size_eq _ _ _ Ho), Hs.
Qed.

Lemma wf_unique s this cells cells' :
  wf_list s this cells → wf_list s this cells' → cells = cells'.
Proof.
  intros H1%wf_cells_of H2%wf_cells_of. congruence.
Qed.

Lemma wf_length s this cells :
  wf_list s this cells → (Z.of_nat (length cells) ≤ max_nodes)%Z.
Proof.
  intros [_ Hseg Hnd Hb]. pose proof (is_seg_length _ _ _ Hseg Hnd). lia.
Qed.

(** ** Positions *)

Lemma last_ptr_nil this : last_ptr (T:=T) this [] = head_of this.
Proof. done. Qed.

Lemma last_ptr_snoc this pre b (w : T) : last_ptr this (pre ++ [(b, w)]) = heap_node b.
Proof. unfold last_ptr. by rewrite last_snoc. Qed.

Lemma belongs_split this cells p :
  belongs this cells p ↔ ∃ pre post, cells = pre ++ post ∧ p = last_ptr this pre.
Proof.
  split.
  - intros [->|(a & -> & Ha)].
    + by exists [], cells.
    + apply list_elem_of_fmap in Ha as ([a' v] & -> & Hin).
      apply list_elem_of_split in Hin as (l1 & l2 & ->).
      exists (l1 ++ [(a', v)]), l2. split.
      * by rewrite <- app_assoc.
      * by rewrite last_ptr_snoc.
  - intros (pre & post & -> & ->).
    destruct pre as [|c pre _] using rev_ind; [by left|right].
    destruct c as [b w]. exists b. split; [apply last_ptr_snoc|].
    rewrite !fmap_app. simpl. apply elem_of_app. left. apply elem_of_app. right.
    apply list_elem_of_here.
Qed.

(** Reading and writing the link at the end of a prefix [pre] of the chain,
    be it in the sentinel or in a real cell. *)
Lemma get_next_at s this o pre e :
  objs s !! this = Some o →
  next_node (head_ o) = first_ptr pre e →
  is_seg (heap s) pre e →
  get_next (last_ptr this pre) s = Ok e s.
Proof.
  intros Ho Hn Hseg.
  destruct pre as [|[b w] pre _] using rev_ind.
  - simpl in Hn. rewrite <- Hn. apply get_next_eq. simpl. by rewrite Ho.
  - rewrite last_ptr_snoc. apply is_seg_app in Hseg as [_ [Hb _]].
    by rewrite (get_next_eq s (heap_node b) _ Hb).
Qed.

Lemma set_next_at s this o pre e q :
  objs s !! this = Some o →
  next_node (head_ o) = first_ptr pre e →
  is_seg (heap s) pre e →
  NoDup pre.*1 →
  ∃ s' o',
    set_next (last_ptr this pre) q s = Ok tt s'
    ∧ mem_limit s' = mem_limit s
    ∧ dom (heap s') = dom (heap s)
    ∧ objs s' = <[this := o']> (objs s)
    ∧ size_ o' = size_ o
    ∧ next_node (head_ o') = first_ptr pre q
    ∧ is_seg (heap s') pre q
    ∧ (∀ a, a ∉ pre.*1 → heap s' !! a = heap s !! a).
Proof.
  intros Ho Hn Hseg Hnd.
  destruct pre as [|[b w] pre _] using rev_ind.
  - eexists _, _. rewrite last_ptr_nil, (set_next_head _ _ _ _ Ho).
    split; [done|]. simpl. repeat split; done.
  - rewrite last_ptr_snoc. apply is_seg_app in Hseg as [Hpre [Hb _]].
    rewrite fmap_app in Hnd. apply NoDup_app in Hnd as (Hnd & Hnot & _).
    assert (b ∉ pre.*1) as Hb'.
    { intros Hin. apply (Hnot _ Hin). apply list_elem_of_here. }
    exists (with_heap (<[b := {| value := w; next_node := q |}]> (heap s)) s), o.
    rewrite (set_next_heap _ _ _ _ Hb). simpl. repeat split.
    + apply dom_insert_lookup_L. by rewrite Hb.
    + by rewrite insert_id.
    + by rewrite Hn, !first_ptr_app.
    + apply is_seg_app. split.
      * simpl in *. eapply is_seg_frame; [|done].
        intros a Ha. apply lookup_insert_ne. by intros ->.
      * simpl. by rewrite lookup_insert_eq.
    + intros a Ha. apply lookup_insert_ne. intros ->. apply Ha.
      rewrite fmap_app. apply elem_of_app. right. apply list_elem_of_here.
Qed.

(** ** Frames *)

Lemma modifies_refl this A s : modifies this A s s.
Proof. by repeat split. Qed.

Lemma modifies_wf_other this A s s' c cc :
  modifies this A s s' → c ≠ this → (∀ a, a ∈ cc.*1 → a ∉ A) →
  (Z.of_nat (size (heap s')) ≤ max_nodes)%Z →
  wf_list s c cc → wf_list s' c cc.
Proof.
  intros (_ & Hobjs & Hheap) Hne Hdisj Hb [(o & Ho & Hn & Hs) Hseg Hnd _].
  split; [|  |done|done].
  - exists o. by rewrite Hobjs.
  - eapply is_seg_frame; [|done]. intros a Ha. apply Hheap; [by apply Hdisj|].
    by eapply is_seg_live.
Qed.

Lemma size_t_wrap_succ (n : nat) :
  (Z.of_nat n < max_nodes)%Z →
  ((Z.of_nat n + 1) mod size_t_modulus)%Z = Z.of_nat (S n).
Proof.
  unfold max_nodes, size_t_modulus. intros Hn.
  rewrite Z.mod_small; lia.
Qed.

Lemma size_t_wrap_pred (n : nat) :
  (Z.of_nat (S n) ≤ max_nodes)%Z →
  ((Z.of_nat (S n) - 1) mod size_t_modulus)%Z = Z.of_nat n.
Proof.
  unfold max_nodes, size_t_modulus. intros Hn.
  rewrite Z.mod_small; lia.
Qed.

Lemma can_allocate_true s :
  can_allocate s = true →
  (Z.of_nat (size (heap s)) < mem_limit s)%Z ∧ (Z.of_nat (size (heap s)) < max_nodes)%Z.
Proof. unfold can_allocate. intros H%bool_decide_eq_true. lia. Qed.

(** ** [InsertAfter] *)

(** At the position after the prefix [pre] of the chain, [InsertAfter]
    splices a fresh cell in, or throws and changes nothing. *)
Lemma InsertAfter_effect s this pre post (pos : ConstIterator) v :
  wf_list s this (pre ++ post) →
  node_ pos = last_ptr this pre →
  if can_allocate s then
    ∃ a s', heap s !! a = None
            ∧ InsertAfter this pos v s = Ok (Iter (heap_node a)) s'
            ∧ wf_list s' this (pre ++ (a, v) :: post)
            ∧ modifies this (pre ++ post).*1 s s'
            ∧ size (heap s') = S (size (heap s))
  else InsertAfter this pos v s = Throw s.
Proof.
  intros [(o & Ho & Hn & Hs) Hseg Hnd Hb] Hpos.
  pose proof (is_seg_length _ _ _ Hseg Hnd) as Hlen.
  rewrite first_ptr_app in Hn. apply is_seg_app in Hseg as [Hpre Hpost].
  pose proof Hnd as Hnd'. rewrite fmap_app in Hnd'.
  apply NoDup_app in Hnd' as (Hndpre & Hsep & Hndpost).
  unfold InsertAfter. rewrite Hpos.
  rewrite (bind_Ok _ _ _ _ _ (get_next_at _ _ _ _ _ Ho Hn Hpre)).
  destruct (can_allocate s) eqn:Hcan.
  2: { by rewrite (bind_Throw _ _ _ _ (operator_new_throw _ _ Hcan)). }
  apply can_allocate_true in Hcan as Hroom.
  rewrite (bind_Ok _ _ _ _ _ (operator_new_ok _ _ Hcan)).
  set (a := fresh (dom (heap s))).
  set (s1 := with_heap _ s).
  pose proof (fresh_heap_None s) as Ha. fold a in Ha.
  assert (∀ b, is_Some (heap s !! b) → heap s1 !! b = heap s !! b) as Hold.
  { intros b [x Hx]. simpl. apply lookup_insert_ne. intros <-. congruence. }
  assert (is_seg (heap s1) pre (first_ptr post nullptr)) as Hpre1.
  { eapply is_seg_frame; [|done]. intros b Hb'. apply Hold.
    eapply is_seg_live; [exact Hpre|exact Hb']. }
  destruct (set_next_at s1 this o pre _ (heap_node a) Ho Hn Hpre1 Hndpre)
    as (s2 & o2 & E2 & Hlim2 & Hdom2 & Hobjs2 & Hsz2 & Hn2 & Hpre2 & Hrest2).
  rewrite (bind_Ok _ _ _ _ _ E2).
  assert (objs s2 !! this = Some o2) as Ho2 by (by rewrite Hobjs2, lookup_insert_eq).
  rewrite (bind_Ok _ _ _ _ _ (incr_size_eq _ _ _ Ho2)).
  exists a. eexists. split; [done|]. split; [done|].
  assert (a ∉ pre.*1) as Hapre.
  { intros Hin. destruct (is_seg_live _ _ _ _ Hpre Hin) as [x Hx]. congruence. }
  assert (a ∉ post.*1) as Hapost.
  { intros Hin. destruct (is_seg_live _ _ _ _ Hpost Hin) as [x Hx]. congruence. }
  assert (size (heap s2) = S (size (heap s))) as Hsize2.
  { rewrite <- !(size_dom (D:=gset positive)), Hdom2. simpl.
    rewrite !(size_dom (D:=gset positive)). by apply map_size_insert_None. }
  split; [split|split; [|done]].
  - eexists. simpl. rewrite lookup_insert_eq. split; [done|]. simpl.
    split; [by rewrite first_ptr_app|].
    rewrite Hsz2, Hs, !length_app. simpl.
    rewrite size_t_wrap_succ; [|rewrite length_app in Hlen; lia].
    f_equal. lia.
  - simpl. apply is_seg_app. split; [done|]. simpl. split.
    + rewrite Hrest2 by done. simpl. by rewrite lookup_insert_eq.
    + eapply is_seg_frame; [|done]. intros b Hb'.
      rewrite Hrest2; [apply Hold; eapply is_seg_live; [exact Hpost|exact Hb']|].
      intros Hin. by apply (Hsep _ Hin).
  - rewrite fmap_app. simpl. apply NoDup_app. split; [done|]. split.
    + intros b Hin Hin'. apply elem_of_cons in Hin' as [->|Hin']; [done|].
      by apply (Hsep _ Hin).
    + apply NoDup_cons. done.
  - simpl. rewrite Hsize2. lia.
  - split; [by simpl; rewrite Hlim2|]. split.
    + intros c Hc. simpl. rewrite lookup_insert_ne by done.
      rewrite Hobjs2. by rewrite lookup_insert_ne.
    + intros b Hb' Hlive. simpl. rewrite Hrest2; [by apply Hold|].
      intros Hin. apply Hb'. rewrite fmap_app. apply elem_of_app. by left.
Qed.

Lemma InsertAfter_spec s this pre post (pos : ConstIterator) v :
  wf_list s this (pre ++ post) →
  node_ pos = last_ptr this pre →
  if can_allocate s then
    ∃ a s', heap s !! a = None
            ∧ InsertAfter this pos v s = Ok (Iter (heap_node a)) s'
            ∧ wf_list s' this (pre ++ (a, v) :: post)
            ∧ modifies this (pre ++ post).*1 s s'
  else InsertAfter this pos v s = Throw s.
Proof.
  intros Hwf Hpos.
  pose proof (InsertAfter_effect s this pre post pos v Hwf Hpos) as H.
  destruct (can_allocate s); [|done].
  destruct H as (a & s' & Ha & E & Hwf' & Hmod & _). by exists a, s'.
Qed.

(** [PushFront] is [InsertAfter] at the sentinel, statement for statement. *)
Lemma PushFront_as_InsertAfter this v (pos : ConstIterator) s :
  node_ pos = head_of this →
  PushFront this v s = bind (InsertAfter this pos v) (λ _, ret tt) s.
Proof.
  intros Hpos. unfold PushFront, InsertAfter, bind. rewrite Hpos.
  destruct (get_next (head_of this) s) as [h s1| | | |]; try done.
  destruct (operator_new _ s1) as [n s2| | | |]; try done.
  destruct (set_next (head_of this) n s2) as [[] s3| | | |]; try done.
  by destruct (incr_size this s3) as [[] s4| | | |].
Qed.

Lemma PushFront_spec s this cells v :
  wf_list s this cells →
  if can_allocate s then
    ∃ a s', heap s !! a = None
            ∧ PushFront this v s = Ok tt s'
            ∧ wf_list s' this ((a, v) :: cells)
            ∧ modifies this cells.*1 s s'
  else PushFront this v s = Throw s.
Proof.
  intros Hwf.
  pose proof (InsertAfter_spec s this [] cells (Iter (head_of this)) v Hwf eq_refl) as H.
  rewrite (PushFront_as_InsertAfter this v (Iter (head_of this)) s eq_refl).
  destruct (can_allocate s).
  - destruct H as (a & s' & Ha & E & Hwf' & Hmod). exists a, s'.
    by rewrite (bind_Ok _ _ _ _ _ E).
  - by rewrite (bind_Throw _ _ _ _ H).
Qed.

(** ** [EraseAfter] and [PopFront] *)

(** At a position that has a successor, [EraseAfter] unlinks and frees the
    successor and returns a cursor at what followed it. *)
Lemma EraseAfter_effect s this pre a v post (pos : ConstIterator) :
  wf_list s this (pre ++ (a, v) :: post) →
  node_ pos = last_ptr this pre →
  ∃ s', EraseAfter this pos s = Ok (Iter (first_ptr post nullptr)) s'
        ∧ wf_list s' this (pre ++ post)
        ∧ modifies this (pre ++ (a, v) :: post).*1 s s'
        ∧ heap s' !! a = None
        ∧ S (size (heap s')) = size (heap s).
Proof.
  intros [(o & Ho & Hn & Hs) Hseg Hnd Hb] Hpos.
  pose proof (is_seg_length _ _ _ Hseg Hnd) as Hlen.
  rewrite first_ptr_app in Hn. apply is_seg_app in Hseg as [Hpre [Ha Hpost]].
  simpl in Hn, Hpre.
  pose proof Hnd as Hnd'. rewrite fmap_app in Hnd'. simpl in Hnd'.
  apply NoDup_app in Hnd' as (Hndpre & Hsep & [Hapost Hndpost]%NoDup_cons).
  assert (a ∉ pre.*1) as Hapre.
  { intros Hin. apply (Hsep _ Hin), list_elem_of_here. }
  rewrite length_app in Hs, Hlen. simpl in Hs, Hlen.
  unfold EraseAfter. rewrite Hpos.
  destruct (set_next_at s this o pre _ (first_ptr post nullptr) Ho Hn Hpre Hndpre)
    as (s1 & o1 & E1 & Hlim1 & Hdom1 & Hobjs1 & Hsz1 & Hn1 & Hpre1 & Hrest1).
  assert (heap s1 !! a = Some {| value := v; next_node := first_ptr post nullptr |})
    as Ha1 by (by rewrite Hrest1).
  assert (objs s1 !! this = Some o1) as Ho1 by (by rewrite Hobjs1, lookup_insert_eq).
  set (s2 := with_heap (delete a (heap s1)) s1).
  set (o3 := {| head_ := head_ o1; size_ := ((size_ o1 - 1) mod size_t_modulus)%Z |}).
  set (s3 := with_objs (<[this := o3]> (objs s2)) s2).
  assert (is_seg (heap s3) pre (first_ptr post nullptr)) as Hpre3.
  { eapply is_seg_frame; [|exact Hpre1]. intros b Hb'. simpl.
    apply lookup_delete_ne. by intros ->. }
  assert (objs s3 !! this = Some o3) as Ho3 by (simpl; by rewrite lookup_insert_eq).
  assert (size (heap s1) = size (heap s)) as Hsize1.
  { by rewrite <- !(size_dom (D:=gset positive)), Hdom1. }
  exists s3. split; [|split; [split|split; [|split]]].
  - apply noexcept_Ok.
    rewrite (bind_Ok _ _ _ _ _ (IsEmpty_eq _ _ _ Ho)).
    rewrite bool_decide_eq_false_2 by (rewrite Hs; lia). simpl.
    erewrite (bind_Ok _ _ s tt s3).
    + by rewrite (bind_Ok _ _ _ _ _ (get_next_at s3 this o3 pre _ Ho3 Hn1 Hpre3)).
    + rewrite (bind_Ok _ _ _ _ _ (get_next_at _ _ _ _ _ Ho Hn Hpre)).
      rewrite (bind_Ok _ _ _ _ _ (get_next_eq s (heap_node a) _ Ha)). simpl.
      rewrite (bind_Ok _ _ _ _ _ E1).
      rewrite (bind_Ok _ _ _ _ _ (operator_delete_heap _ _ _ Ha1)).
      exact (decr_size_eq s2 this o1 Ho1).
  - exists o3. split; [done|]. simpl. split; [by rewrite first_ptr_app|].
    rewrite Hsz1, Hs, length_app.
    replace (length pre + S (length post)) with (S (length pre + length post)) by lia.
    apply size_t_wrap_pred. lia.
  - simpl. apply is_seg_app. split; [done|].
    eapply is_seg_frame; [|exact Hpost]. intros b Hb'. simpl.
    rewrite lookup_delete_ne by (by intros ->).
    apply Hrest1. intros Hin. apply (Hsep _ Hin). by apply list_elem_of_further.
  - rewrite fmap_app. apply NoDup_app. split; [done|]. split; [|done].
    intros b Hin Hin'. apply (Hsep _ Hin). by apply list_elem_of_further.
  - simpl. rewrite map_size_delete, Ha1.
    assert (size (heap s1) = size (heap s)) as ->.
    { by rewrite <- !(size_dom (D:=gset positive)), Hdom1. }
    lia.
  - split; [by simpl; rewrite Hlim1|]. split.
    + intros c Hc. simpl. rewrite lookup_insert_ne by done.
      rewrite Hobjs1. by rewrite lookup_insert_ne.
    + intros b Hb' Hlive. simpl. rewrite lookup_delete_ne.
      * apply Hrest1. intros Hin. apply Hb'. rewrite fmap_app.
        apply elem_of_app. by left.
      * intros <-. apply Hb'. rewrite fmap_app. apply elem_of_app. right.
        apply list_elem_of_here.
  - simpl. apply lookup_delete_eq.
  - simpl. rewrite map_size_delete, Ha1, Hsize1. simpl. lia.
Qed.

Lemma EraseAfter_spec s this pre a v post (pos : ConstIterator) :
  wf_list s this (pre ++ (a, v) :: post) →
  node_ pos = last_ptr this pre →
  ∃ s', EraseAfter this pos s = Ok (Iter (first_ptr post nullptr)) s'
        ∧ wf_list s' this (pre ++ post)
        ∧ modifies this (pre ++ (a, v) :: post).*1 s s'.
Proof.
  intros Hwf Hpos.
  destruct (EraseAfter_effect s this pre a v post pos Hwf Hpos)
    as (s' & E & Hwf' & Hmod & _).
  by exists s'.
Qed.

Lemma PopFront_spec s this a v post :
  wf_list s this ((a, v) :: post) →
  ∃ s', PopFront NDEBUG this s = Ok tt s'
        ∧ wf_list s' this post
        ∧ modifies this ((a, v) :: post).*1 s s'.
Proof.
  intros Hwf.
  destruct (EraseAfter_spec s this [] a v post (Iter (head_of this)) Hwf eq_refl)
    as (s' & E & Hwf' & Hmod).
  exists s'. split; [|done].
  destruct Hwf as [(o & Ho & Hn & Hs) [Ha _] _ _]. simpl in Hn, Hs.
  revert E. unfold EraseAfter, PopFront, noexcept, bind, when, assert_.
  rewrite (IsEmpty_eq _ _ _ Ho).
  rewrite bool_decide_eq_false_2 by (rewrite Hs; lia). simpl.
  replace (if NDEBUG then ret () else ret ()) with (ret (T:=T) ())
    by (by destruct NDEBUG).
  unfold ret at 2.
  destruct (get_next (head_of this) s) as [tmp s1| | | |]; try done.
  destruct (get_next tmp s1) as [n s2| | | |]; try done.
  destruct (set_next (head_of this) n s2) as [[] s3| | | |]; try done.
  destruct (operator_delete tmp s3) as [[] s4| | | |]; try done.
  destruct (decr_size this s4) as [[] s5| | | |]; try done.
  destruct (get_next (head_of this) s5) as [r s6| | | |] eqn:E6; try done.
  apply get_next_pure in E6 as ->. unfold ret. by intros [= _ ->].
Qed.

(** The node at a position of the chain links to what follows the position. *)
Lemma node_at_position s this pre post nd :
  wf_list s this (pre ++ post) →
  node_at s (last_ptr this pre) = Some nd →
  next_node nd = first_ptr post nullptr.
Proof.
  intros [(o & Ho & Hn & _) Hseg _ _] Hnd.
  rewrite first_ptr_app in Hn. apply is_seg_app in Hseg as [Hpre _].
  pose proof (get_next_at _ _ _ _ _ Ho Hn Hpre) as E.
  rewrite (get_next_eq _ _ _ Hnd) in E. by injection E.
Qed.

(** ** The invariant along sequences of mutations *)

(** A mutation made under its precondition keeps the invariant, touches
    nothing outside the container, and brings only fresh cells in. *)
Lemma step_preserves this s s' cells :
  wf_list s this cells → step NDEBUG this s s' →
  ∃ cells', wf_list s' this cells'
            ∧ modifies this cells.*1 s s'
            ∧ (∀ a, a ∈ cells'.*1 → a ∈ cells.*1 ∨ heap s !! a = None).
Proof.
  intros Hwf Hstep.
  assert (∃ cells', wf_list s this cells' ∧ modifies this cells.*1 s s
                    ∧ ∀ a, a ∈ cells'.*1 → a ∈ cells.*1 ∨ heap s !! a = None) as Hsame.
  { exists cells. split; [done|]. split; [apply modifies_refl|]. by left. }
  revert Hsame.
  destruct Hstep as [m s s' Hpre Hrun|m s s' Hpre Hrun]; destruct m as [v| |pos v|pos];
    simpl in Hpre, Hrun; intros Hsame.
  - pose proof (PushFront_spec s this cells v Hwf) as H.
    destruct (can_allocate s); [|congruence].
    destruct H as (a & s1 & Ha & E & Hwf1 & Hmod). rewrite E in Hrun.
    injection Hrun as <-. exists ((a, v) :: cells). split; [done|]. split; [done|].
    intros b [->|Hb]%elem_of_cons; eauto.
  - destruct Hpre as (n & Hn & Hn0). rewrite (wf_size_of _ _ _ Hwf) in Hn.
    injection Hn as <-. destruct cells as [|[a v] post]; [done|].
    destruct (PopFront_spec s this a v post Hwf) as (s1 & E & Hwf1 & Hmod).
    rewrite E in Hrun. injection Hrun as <-. exists post. split; [done|].
    split; [done|]. intros b Hb. left. by apply list_elem_of_further.
  - destruct Hpre as (cells0 & Hc & Hbel). rewrite (wf_cells_of _ _ _ Hwf) in Hc.
    injection Hc as <-. apply belongs_split in Hbel as (pre & post & -> & Hpos).
    pose proof (InsertAfter_spec s this pre post pos v Hwf Hpos) as H.
    destruct (can_allocate s); [|by rewrite (bind_Throw _ _ _ _ H) in Hrun].
    destruct H as (a & s1 & Ha & E & Hwf1 & Hmod).
    rewrite (bind_Ok _ _ _ _ _ E) in Hrun. injection Hrun as <-.
    exists (pre ++ (a, v) :: post). split; [done|]. split; [done|].
    intros b Hb. rewrite fmap_app in Hb. simpl in Hb. rewrite fmap_app.
    apply elem_of_app in Hb as [Hb|[->|Hb]%elem_of_cons]; [left|by right|left];
      apply elem_of_app; eauto.
  - destruct Hpre as (cells0 & Hc & Hbel & nd & a & Hnd & Hnext).
    rewrite (wf_cells_of _ _ _ Hwf) in Hc.
    injection Hc as <-. apply belongs_split in Hbel as (pre & post & -> & Hpos).
    rewrite Hpos in Hnd. pose proof (node_at_position _ _ _ _ _ Hwf Hnd) as Hfirst.
    rewrite Hnext in Hfirst. destruct post as [|[a' v] post]; [done|].
    destruct (EraseAfter_spec s this pre a' v post pos Hwf Hpos) as (s1 & E & Hwf1 & Hmod).
    rewrite (bind_Ok _ _ _ _ _ E) in Hrun. injection Hrun as <-.
    exists (pre ++ post). split; [done|]. split; [done|].
    intros b Hb. left. rewrite fmap_app in Hb. rewrite fmap_app. simpl.
    apply elem_of_app in Hb as [Hb|Hb]; apply elem_of_app; [by left|right].
    by apply list_elem_of_further.
  - pose proof (PushFront_spec s this cells v Hwf) as H.
    destruct (can_allocate s).
    + destruct H as (a & s1 & Ha & E & _). congruence.
    + rewrite H in Hrun. by injection Hrun as <-.
  - destruct Hpre as (n & Hn & Hn0). rewrite (wf_size_of _ _ _ Hwf) in Hn.
    injection Hn as <-. destruct cells as [|[a v] post]; [done|].
    destruct (PopFront_spec s this a v post Hwf) as (s1 & E & _). congruence.
  - destruct Hpre as (cells0 & Hc & Hbel). rewrite (wf_cells_of _ _ _ Hwf) in Hc.
    injection Hc as <-. apply belongs_split in Hbel as (pre & post & -> & Hpos).
    pose proof (InsertAfter_spec s this pre post pos v Hwf Hpos) as H.
    destruct (can_allocate s).
    + destruct H as (a & s1 & Ha & E & _). by rewrite (bind_Ok _ _ _ _ _ E) in Hrun.
    + rewrite (bind_Throw _ _ _ _ H) in Hrun. by injection Hrun as <-.
  - destruct Hpre as (cells0 & Hc & Hbel & nd & a & Hnd & Hnext).
    rewrite (wf_cells_of _ _ _ Hwf) in Hc.
    injection Hc as <-. apply belongs_split in Hbel as (pre & post & -> & Hpos).
    rewrite Hpos in Hnd. pose proof (node_at_position _ _ _ _ _ Hwf Hnd) as Hfirst.
    rewrite Hnext in Hfirst. destruct post as [|[a' v] post]; [done|].
    destruct (EraseAfter_spec s this pre a' v post pos Hwf Hpos) as (s1 & E & _).
    by rewrite (bind_Ok _ _ _ _ _ E) in Hrun.
Qed.

Lemma steps_preserve this s s' cells :
  wf_list s this cells → rtc (step NDEBUG this) s s' → ∃ cells', wf_list s' this cells'.
Proof.
  intros Hwf Hsteps. revert cells Hwf.
  induction Hsteps as [s|s s1 s2 Hstep _ IH]; intros cells Hwf; [by exists cells|].
  destruct (step_preserves _ _ _ _ Hwf Hstep) as (cells1 & Hwf1 & _). by eapply IH.
Qed.

(** The default constructor always returns, with an empty container. *)
Lemma construct_default_spec this s :
  (Z.of_nat (size (heap s)) ≤ max_nodes)%Z →
  ∃ s', construct_default dflt this s = Ok tt s'
        ∧ wf_list s' this []
        ∧ modifies this [] s s'.
Proof.
  intros Hb. eexists. split.
  - unfold construct_default, constructing, bind, init_members.
    erewrite set_next_head; [done|]. simpl. by rewrite lookup_insert_eq.
  - split; [split|]; simpl; try done.
    + eexists. rewrite lookup_insert_eq. done.
    + apply NoDup_nil_2.
    + split; [done|]. split; [|done]. intros c Hc. simpl.
      by rewrite !lookup_insert_ne.
Qed.

(** ** Building a chain: [Assign] *)

Lemma linked_wf s this cells :
  linked s this cells →
  size_of s this = Some (Z.of_nat (length cells)) →
  (Z.of_nat (size (heap s)) ≤ max_nodes)%Z →
  wf_list s this cells.
Proof.
  intros (o & Ho & Hn & Hseg & Hnd) Hs Hb. split; try done.
  exists o. unfold size_of in Hs. rewrite Ho in Hs. by injection Hs.
Qed.

Lemma wf_linked s this cells : wf_list s this cells → linked s this cells.
Proof. intros [(o & Ho & Hn & _) Hseg Hnd _]. by exists o. Qed.

Lemma extends_trans this cd cd1 cd2 st st1 st2 :
  extends this cd cd1 st st1 → extends this (cd ++ cd1) cd2 st1 st2 →
  extends this cd (cd1 ++ cd2) st st2.
Proof.
  intros [(o & o1 & Ho & Hobjs1 & Hs1) Hl1 Hfr1 Hframe1 Hsz1 Hlim1]
         [(o1' & o2 & Ho1 & Hobjs2 & Hs2) Hl2 Hfr2 Hframe2 Hsz2 Hlim2].
  rewrite Hobjs1, lookup_insert_eq in Ho1. injection Ho1 as <-.
  assert (∀ a, a ∈ cd2.*1 → (a ∉ cd.*1) ∧ (a ∉ cd1.*1)) as Hc2.
  { destruct Hl2 as (_ & _ & _ & _ & Hnd). rewrite !fmap_app in Hnd.
    apply NoDup_app in Hnd as (_ & Hsep & _). intros a Ha.
    split; intros Hin; apply (Hsep a); try done; apply elem_of_app; eauto. }
  split.
  - exists o, o2. split; [done|]. split; [|congruence].
    by rewrite Hobjs2, Hobjs1, insert_insert_eq.
  - by rewrite app_assoc.
  - intros a Ha. rewrite fmap_app in Ha. apply elem_of_app in Ha as [Ha|Ha]; [eauto|].
    destruct (heap st !! a) as [nd|] eqn:E; [|done].
    destruct (Hc2 a Ha) as [H1 H2].
    rewrite <- E, <- (Hframe1 a H1) by (rewrite E; eauto). by apply Hfr2.
  - intros a Ha Hlive. rewrite <- (Hframe1 a Ha Hlive). apply Hframe2.
    + rewrite fmap_app. intros [Hin|Hin]%elem_of_app; [done|].
      rewrite (Hfr1 a Hin) in Hlive. by destruct Hlive.
    + by rewrite (Hframe1 a Ha Hlive).
  - rewrite Hsz2, Hsz1, length_app. lia.
  - congruence.
Qed.

Lemma extends_nil this cd st : linked st this cd → extends this cd [] st st.
Proof.
  intros Hl. pose proof Hl as (o & Ho & _). split; try done.
  - exists o, o. by rewrite insert_id.
  - by rewrite app_nil_r.
  - intros a Ha. by apply elem_of_nil in Ha.
Qed.

(** One round of the loop of [Assign] appends one new cell, or throws with
    the store as it was. *)
Lemma Assign_step_spec st this cd x last_new :
  linked st this cd →
  (cd ≠ [] → last_new = last_ptr this cd) →
  if can_allocate st then
    ∃ n st', Assign_step this x last_new st = Ok (heap_node n) st'
             ∧ extends this cd [(n, x)] st st'
  else Assign_step this x last_new st = Throw st.
Proof.
  intros (o & Ho & Hn & Hseg & Hnd) Hlast. unfold Assign_step.
  destruct (can_allocate st) eqn:Hcan.
  2: { by rewrite (bind_Throw _ _ _ _ (operator_new_throw _ _ Hcan)). }
  rewrite (bind_Ok _ _ _ _ _ (operator_new_ok _ _ Hcan)).
  set (n := fresh (dom (heap st))). set (st1 := with_heap _ st).
  pose proof (fresh_heap_None st) as Hfresh. fold n in Hfresh.
  assert (∀ b, is_Some (heap st !! b) → heap st1 !! b = heap st !! b) as Hold.
  { intros b [y Hy]. simpl. apply lookup_insert_ne. intros <-. congruence. }
  assert (is_seg (heap st1) cd nullptr) as Hseg1.
  { eapply is_seg_frame; [|done]. intros b Hb. apply Hold.
    eapply is_seg_live; [exact Hseg|exact Hb]. }
  assert (objs st1 !! this = Some o) as Ho1 by done.
  rewrite (bind_Ok _ _ st1 (first_ptr cd nullptr) st1).
  2: { rewrite <- Hn. apply get_next_eq. simpl. by rewrite Ho. }
  destruct (set_next_at st1 this o cd nullptr (heap_node n) Ho1 Hn Hseg1 Hnd)
    as (st2 & o2 & E2 & Hlim2 & Hdom2 & Hobjs2 & Hsz2 & Hn2 & Hseg2 & Hrest2).
  assert ((if bool_decide (first_ptr cd nullptr = nullptr)
           then set_next (head_of this) (heap_node n)
           else set_next last_new (heap_node n)) st1 = Ok tt st2) as E.
  { destruct cd as [|[b w] cd']; [done|]. simpl. by rewrite Hlast. }
  rewrite (bind_Ok _ _ _ _ _ E).
  assert (n ∉ cd.*1) as Hncd.
  { intros Hin. destruct (is_seg_live _ _ _ _ Hseg Hin) as [y Hy]. congruence. }
  exists n, st2. split; [done|]. split.
  - exists o, o2. done.
  - exists o2. rewrite Hobjs2, lookup_insert_eq. split; [done|].
    split; [by rewrite first_ptr_app|]. split.
    + apply is_seg_app. split; [done|]. simpl. split; [|done].
      rewrite Hrest2 by done. simpl. by rewrite lookup_insert_eq.
    + rewrite fmap_app. apply NoDup_app. split; [done|]. split.
      * intros b Hb [->|Hb']%elem_of_cons; [done|]. by apply elem_of_nil in Hb'.
      * apply NoDup_singleton.
  - intros a [->|Ha]%elem_of_cons; [done|]. by apply elem_of_nil in Ha.
  - intros a Ha Hlive. rewrite Hrest2 by done. by apply Hold.
  - rewrite <- !(size_dom (D:=gset positive)), Hdom2. simpl.
    rewrite !(size_dom (D:=gset positive)).
    rewrite map_size_insert_None by done. lia.
  - done.
Qed.

Lemma can_allocate_room st :
  (Z.of_nat (size (heap st)) < Z.min (mem_limit st) max_nodes)%Z →
  can_allocate st = true.
Proof. intros H. unfold can_allocate. by apply bool_decide_eq_true_2. Qed.

Lemma last_ptr_snoc_ne this cd n (x : T) :
  cd ++ [(n, x)] ≠ [] → heap_node n = last_ptr this (cd ++ [(n, x)]).
Proof. intros _. by rewrite last_ptr_snoc. Qed.

Lemma constructing_Ok {A} this (body : M (T:=T) A) s a s' :
  body s = Ok a s' → constructing this body s = Ok a s'.
Proof. intros E. unfold constructing. by rewrite E. Qed.

Lemma deref_eq {V} (it : BasicIterator V) s nd :
  node_at s (node_ it) = Some nd → deref it s = Ok (value nd) s.
Proof. intros E. apply noexcept_Ok. by apply get_value_eq. Qed.

Lemma pre_increment_eq {V} (it : BasicIterator V) s nd :
  node_at s (node_ it) = Some nd → pre_increment it s = Ok (Iter (next_node nd)) s.
Proof.
  intros E. apply noexcept_Ok.
  rewrite bool_decide_eq_true_2 by (intros H; by rewrite H in E).
  by rewrite (bind_Ok _ _ _ _ _ (get_next_eq _ _ _ E)).
Qed.

Lemma pre_increment_end {V} (it : BasicIterator V) s :
  node_ it = nullptr → pre_increment it s = Ok it s.
Proof.
  intros E. apply noexcept_Ok. by rewrite bool_decide_eq_false_2 by (by intros []).
Qed.

(** [Assign] over an initializer list: with room for every element, the
    chain grows by one new cell per value, in order. *)
Lemma Assign_values_spec values : ∀ st this cd last_new,
  linked st this cd →
  (cd ≠ [] → last_new = last_ptr this cd) →
  (Z.of_nat (size (heap st) + length values) ≤ Z.min (mem_limit st) max_nodes)%Z →
  ∃ st' cd', Assign_values this values last_new st = Ok tt st'
             ∧ cd'.*2 = values
             ∧ extends this cd cd' st st'.
Proof.
  induction values as [|x values IH]; intros st this cd last_new Hl Hlast Hroom.
  - exists st, []. split; [done|]. split; [done|]. by apply extends_nil.
  - simpl in Hroom. pose proof (Assign_step_spec st this cd x last_new Hl Hlast) as H.
    rewrite can_allocate_room in H by lia.
    destruct H as (n & st1 & E1 & Hext1).
    destruct (IH st1 this (cd ++ [(n, x)]) (heap_node n)) as (st2 & cd2 & E2 & Hv & Hext2).
    + apply Hext1.
    + apply last_ptr_snoc_ne.
    + rewrite (ext_size _ _ _ _ _ Hext1), (ext_limit _ _ _ _ _ Hext1). simpl. lia.
    + exists st2, ((n, x) :: cd2). split; [|split].
      * simpl. by rewrite (bind_Ok _ _ _ _ _ E1).
      * by rewrite !fmap_cons, Hv.
      * by apply (extends_trans this cd [(n, x)] cd2 st st1 st2).
Qed.

(** [Assign] over the cells [rest] of another chain. *)
Lemma Assign_iter_spec rest : ∀ fuel st this cd last_new,
  length rest < fuel →
  linked st this cd →
  (cd ≠ [] → last_new = last_ptr this cd) →
  is_seg (heap st) rest nullptr →
  (∀ a, a ∈ rest.*1 → a ∉ cd.*1) →
  (Z.of_nat (size (heap st) + length rest) ≤ Z.min (mem_limit st) max_nodes)%Z →
  ∃ st' cd',
    Assign_iter fuel this (Iter (first_ptr rest nullptr)) (Iter nullptr) last_new st
    = Ok tt st'
    ∧ cd'.*2 = rest.*2
    ∧ extends this cd cd' st st'.
Proof.
  induction rest as [|[a x] rest IH];
    intros fuel st this cd last_new Hfuel Hl Hlast Hsrc Hsep Hroom;
    (destruct fuel as [|fuel]; [simpl in Hfuel; lia|]).
  - exists st, []. split; [done|]. split; [done|]. by apply extends_nil.
  - simpl in Hroom, Hfuel. destruct Hsrc as [Ha Hsrc].
    pose proof (Assign_step_spec st this cd x last_new Hl Hlast) as H.
    rewrite can_allocate_room in H by lia.
    destruct H as (n & st1 & E1 & Hext1).
    assert (∀ b, b ∈ ((a, x) :: rest).*1 → heap st1 !! b = heap st !! b) as Hkeep.
    { intros b Hb. apply (ext_frame _ _ _ _ _ Hext1); [by apply Hsep|].
      eapply (is_seg_live _ ((a, x) :: rest)); [by split|done]. }
    destruct (IH fuel st1 this (cd ++ [(n, x)]) (heap_node n)) as (st2 & cd2 & E2 & Hv & Hext2).
    + lia.
    + apply Hext1.
    + apply last_ptr_snoc_ne.
    + eapply is_seg_frame; [|exact Hsrc]. intros b Hb. apply Hkeep.
      by apply list_elem_of_further.
    + intros b Hb. rewrite fmap_app.
      intros [Hin|[->|Hin]%elem_of_cons]%elem_of_app.
      * apply (Hsep b); [by apply list_elem_of_further|done].
      * destruct (is_seg_live _ _ _ _ Hsrc Hb) as [y Hy]. simpl in Hy.
        rewrite (ext_fresh _ _ _ _ _ Hext1 n) in Hy; [done|apply list_elem_of_here].
      * by apply elem_of_nil in Hin.
    + rewrite (ext_size _ _ _ _ _ Hext1), (ext_limit _ _ _ _ _ Hext1). simpl. lia.
    + exists st2, ((n, x) :: cd2). split; [|split].
      * simpl. unfold iter_ne. simpl.
        rewrite (bind_Ok _ _ _ _ _ (deref_eq (V:=ReadOnly) (Iter (heap_node a)) st _ Ha)).
        simpl. rewrite (bind_Ok _ _ _ _ _ E1).
        assert (heap st1 !! a = Some {| value := x; next_node := first_ptr rest nullptr |})
          as Ha1 by (rewrite Hkeep; [done|apply list_elem_of_here]).
        by rewrite (bind_Ok _ _ _ _ _
                     (pre_increment_eq (V:=ReadOnly) (Iter (heap_node a)) st1 _ Ha1)).
      * by rewrite !fmap_cons, Hv.
      * by apply (extends_trans this cd [(n, x)] cd2 st st1 st2).
Qed.

(** What a constructor that ran [Assign] leaves behind. *)
Lemma built_wf s s1 s' this n cd :
  (Z.of_nat (size (heap s) + length cd) ≤ max_nodes)%Z →
  init_members dflt this (Z.of_nat n) s = Ok tt s1 →
  extends this [] cd s1 s' →
  length cd = n →
  wf_list s' this cd ∧ modifies this [] s s' ∧ ∀ a, a ∈ cd.*1 → heap s !! a = None.
Proof.
  intros Hroom Hinit [(o & o' & Ho & Hobjs & Hs) Hl Hfresh Hframe Hsz Hlim] Hlen.
  unfold init_members in Hinit. injection Hinit as <-. simpl in *.
  rewrite lookup_insert_eq in Ho. injection Ho as <-. simpl in Hs.
  split; [|split].
  - apply linked_wf; [done| |lia].
    unfold size_of. rewrite Hobjs, lookup_insert_eq. by rewrite Hs, Hlen.
  - split; [done|]. split.
    + intros c Hc. by rewrite Hobjs, !lookup_insert_ne.
    + intros a _ Hlive. apply Hframe; [|done]. intros Hin. by apply elem_of_nil in Hin.
  - done.
Qed.

(** The constructor from an initializer list returns when there is room,
    with the values in order. *)
Lemma construct_from_values_spec s this values :
  (Z.of_nat (size (heap s) + length values) ≤ Z.min (mem_limit s) max_nodes)%Z →
  ∃ s' cells,
    construct_from_values dflt this values s = Ok tt s'
    ∧ cells.*2 = values
    ∧ wf_list s' this cells
    ∧ modifies this [] s s'
    ∧ ∀ a, a ∈ cells.*1 → heap s !! a = None.
Proof.
  intros Hroom.
  set (s1 := with_objs
               (<[this := {| head_ := {| value := dflt; next_node := nullptr |};
                             size_ := Z.of_nat (length values) |}]> (objs s)) s).
  destruct (Assign_values_spec values s1 this [] nullptr) as (s' & cd & E & Hv & Hext).
  - eexists. simpl. rewrite lookup_insert_eq. repeat split; try done. apply NoDup_nil_2.
  - done.
  - done.
  - exists s', cd. split; [|split; [done|]].
    + apply constructing_Ok. by rewrite (bind_Ok _ _ s tt s1).
    + apply (built_wf s s1 s' this (length values) cd); try done.
      * rewrite <- Hv, length_fmap in Hroom. lia.
      * by rewrite <- Hv, length_fmap.
Qed.

(** The copy constructor returns when there is room and fuel, with a chain
    of new cells holding the same values in the same order; the source is
    as it was. *)
Lemma construct_copy_effect fuel s this other cells :
  wf_list s other cells →
  objs s !! this = None →
  length cells < fuel →
  (Z.of_nat (size (heap s) + length cells) ≤ Z.min (mem_limit s) max_nodes)%Z →
  ∃ s' cd,
    construct_copy dflt fuel this other s = Ok tt s'
    ∧ cd.*2 = cells.*2
    ∧ wf_list s' this cd
    ∧ wf_list s' other cells
    ∧ modifies this [] s s'
    ∧ (∀ a, a ∈ cd.*1 → heap s !! a = None)
    ∧ size (heap s') = size (heap s) + length cells.
Proof.
  intros Hwf Hnew Hfuel Hroom.
  pose proof Hwf as [(o & Ho & Hn & Hs) Hseg Hnd Hb].
  assert (other ≠ this) as Hne by (intros ->; congruence).
  set (s1 := with_objs
               (<[this := {| head_ := {| value := dflt; next_node := nullptr |};
                             size_ := Z.of_nat (length cells) |}]> (objs s)) s).
  destruct (Assign_iter_spec cells fuel s1 this [] nullptr) as (s' & cd & E & Hv & Hext);
    try done.
  - eexists. simpl. rewrite lookup_insert_eq. repeat split; try done. apply NoDup_nil_2.
  - intros a _ Hin. by apply elem_of_nil in Hin.
  - assert (length cd = length cells) as Hlen.
    { by rewrite <- (length_fmap snd cd), Hv, length_fmap. }
    destruct (built_wf s s1 s' this (length cells) cd) as (Hwf' & Hmod & Hfresh);
      try done; [lia|].
    exists s', cd.
    split; [|split; [done|split; [done|split; [|split; [done|split; [done|]]]]]].
    + apply constructing_Ok.
      rewrite (bind_Ok _ _ _ _ _ (wf_GetSize _ _ _ Hwf)).
      rewrite (bind_Ok _ _ s tt s1) by done.
      assert (objs s1 !! other = Some o) as Ho1 by (simpl; by rewrite lookup_insert_ne).
      rewrite (bind_Ok _ _ _ _ _ (begin_eq s1 other o Ho1)), Hn.
      by unfold end_.
    + eapply modifies_wf_other; [exact Hmod|done| |apply Hwf'|done].
      intros a _ Hin. by apply elem_of_nil in Hin.
    + by rewrite (ext_size _ _ _ _ _ Hext), Hlen.
Qed.

Lemma construct_copy_spec fuel s this other cells :
  wf_list s other cells →
  objs s !! this = None →
  length cells < fuel →
  (Z.of_nat (size (heap s) + length cells) ≤ Z.min (mem_limit s) max_nodes)%Z →
  ∃ s' cd,
    construct_copy dflt fuel this other s = Ok tt s'
    ∧ cd.*2 = cells.*2
    ∧ wf_list s' this cd
    ∧ wf_list s' other cells
    ∧ modifies this [] s s'
    ∧ ∀ a, a ∈ cd.*1 → heap s !! a = None.
Proof.
  intros Hwf Hnew Hfuel Hroom.
  destruct (construct_copy_effect fuel s this other cells Hwf Hnew Hfuel Hroom)
    as (s' & cd & E & Hv & Hwf' & Hother & Hmod & Hfresh & _).
  by exists s', cd.
Qed.

(** ** The comparison operators *)

Lemma spec_equal_nil (lb : list T) : spec_equal T_eq [] lb ↔ lb = [].
Proof.
  unfold spec_equal. split.
  - intros [Hlen _]. by destruct lb.
  - intros ->. split; [done|]. intros i x y Hx. by rewrite lookup_nil in Hx.
Qed.

Lemma spec_equal_cons x (la : list T) y lb :
  spec_equal T_eq (x :: la) (y :: lb) ↔ T_eq x y = true ∧ spec_equal T_eq la lb.
Proof.
  unfold spec_equal. split.
  - intros [Hlen Hall]. split; [by apply (Hall 0)|]. split; [by injection Hlen|].
    intros i u v Hu Hv. by apply (Hall (S i)).
  - intros [Hxy [Hlen Hall]]. split; [simpl; by rewrite Hlen|].
    intros [|i] u v Hu Hv; simpl in Hu, Hv; [congruence|by eapply Hall].
Qed.

Lemma std_equal_spec s ca : ∀ cb fuel,
  is_seg (heap s) ca nullptr → is_seg (heap s) cb nullptr → length ca < fuel →
  ∃ r, std_equal T_eq fuel (Iter (first_ptr ca nullptr)) (Iter nullptr)
                          (Iter (first_ptr cb nullptr)) (Iter nullptr) s = Ok r s
       ∧ (r = true ↔ spec_equal T_eq ca.*2 cb.*2).
Proof.
  induction ca as [|[a x] ca IH]; intros cb fuel Ha Hb Hfuel;
    (destruct fuel as [|fuel]; [simpl in Hfuel; lia|]).
  - eexists. split; [done|]. simpl. rewrite spec_equal_nil.
    destruct cb as [|[b y] cb]; by simpl.
  - destruct cb as [|[b y] cb].
    + exists false. split; [done|]. split; [done|]. by intros [Hlen _].
    + destruct Ha as [Ha Ha'], Hb as [Hb Hb']. simpl in Hfuel.
      destruct (IH cb fuel Ha' Hb' ltac:(lia)) as (r & E & Hr).
      rewrite !fmap_cons. simpl snd.
      exists (if negb (T_eq x y) then false else r). split.
      * simpl.
        rewrite (bind_Ok _ _ _ _ _ (deref_eq (V:=ReadOnly) (Iter (heap_node a)) s _ Ha)).
        rewrite (bind_Ok _ _ _ _ _ (deref_eq (V:=ReadOnly) (Iter (heap_node b)) s _ Hb)).
        simpl. destruct (T_eq x y); [|done]. simpl.
        rewrite (bind_Ok _ _ _ _ _
                   (pre_increment_eq (V:=ReadOnly) (Iter (heap_node a)) s _ Ha)).
        by rewrite (bind_Ok _ _ _ _ _
                      (pre_increment_eq (V:=ReadOnly) (Iter (heap_node b)) s _ Hb)).
      * rewrite spec_equal_cons.
        destruct (T_eq x y); simpl.
        -- rewrite Hr. split; [by intros ?; split|by intros [_ ?]].
        -- split; [done|]. by intros [? _].
Qed.

Lemma operator_eq_spec s lhs rhs ca cb fuel :
  wf_list s lhs ca → wf_list s rhs cb → length ca < fuel →
  ∃ r, operator_eq T_eq fuel lhs rhs s = Ok r s
       ∧ (r = true ↔ spec_equal T_eq ca.*2 cb.*2).
Proof.
  intros [(oa & Hoa & Hna & _) Ha _ _] [(ob & Hob & Hnb & _) Hb _ _] Hfuel.
  destruct (std_equal_spec s ca cb fuel Ha Hb Hfuel) as (r & E & Hr).
  exists r. split; [|done]. unfold operator_eq.
  rewrite (bind_Ok _ _ _ _ _ (begin_eq s lhs oa Hoa)), Hna. unfold end_ at 1.
  rewrite (bind_Ok _ _ s (Iter nullptr) s) by done.
  rewrite (bind_Ok _ _ _ _ _ (begin_eq s rhs ob Hob)), Hnb. unfold end_.
  by rewrite (bind_Ok _ _ s (Iter nullptr) s) by done.
Qed.

Lemma first_difference_nil : ¬ first_difference_less T_lt [] [].
Proof. intros (i & x & y & Hx & _). by rewrite lookup_nil in Hx. Qed.

Lemma first_difference_here x (la : list T) y lb :
  T_lt x y = true → first_difference_less T_lt (x :: la) (y :: lb).
Proof.
  intros Hxy. exists 0, x, y. do 3 (split; [done|]). intros j u v Hj. lia.
Qed.

Lemma first_difference_later x (la : list T) y lb :
  T_lt x y = false →
  first_difference_less T_lt (x :: la) (y :: lb)
  ↔ T_lt y x = false ∧ first_difference_less T_lt la lb.
Proof.
  intros Hxy. split.
  - intros (i & u & v & Hu & Hv & Huv & Hbefore). destruct i as [|i].
    + simpl in Hu, Hv. congruence.
    + destruct (Hbefore 0 x y) as [_ Hyx]; [lia|done|done|]. split; [done|].
      exists i, u, v. do 3 (split; [done|]).
      intros j u' v' Hj Hu' Hv'. by apply (Hbefore (S j)); [lia| |].
  - intros [Hyx (i & u & v & Hu & Hv & Huv & Hbefore)].
    exists (S i), u, v. do 3 (split; [done|]).
    intros [|j] u' v' Hj Hu' Hv'; simpl in Hu', Hv'.
    + injection Hu' as <-. injection Hv' as <-. by split.
    + apply (Hbefore j); [lia|done|done].
Qed.

Lemma std_lexicographical_compare_spec s ca : ∀ cb fuel,
  is_seg (heap s) ca nullptr → is_seg (heap s) cb nullptr →
  length ca = length cb → length ca < fuel →
  ∃ r, std_lexicographical_compare T_lt fuel
         (Iter (first_ptr ca nullptr)) (Iter nullptr)
         (Iter (first_ptr cb nullptr)) (Iter nullptr) s = Ok r s
       ∧ (r = true ↔ first_difference_less T_lt ca.*2 cb.*2).
Proof.
  induction ca as [|[a x] ca IH]; intros cb fuel Ha Hb Hlen Hfuel;
    (destruct fuel as [|fuel]; [simpl in Hfuel; lia|]);
    (destruct cb as [|[b y] cb]; [|]); try done.
  - exists false. split; [done|]. split; [done|]. intros H.
    by apply first_difference_nil in H.
  - destruct Ha as [Ha Ha'], Hb as [Hb Hb']. simpl in Hfuel, Hlen.
    destruct (IH cb fuel Ha' Hb' ltac:(lia) ltac:(lia)) as (r & E & Hr).
    rewrite !fmap_cons. simpl snd.
    exists (if T_lt x y then true else if T_lt y x then false else r). split.
    + simpl.
      rewrite (bind_Ok _ _ _ _ _ (deref_eq (V:=ReadOnly) (Iter (heap_node a)) s _ Ha)).
      rewrite (bind_Ok _ _ _ _ _ (deref_eq (V:=ReadOnly) (Iter (heap_node b)) s _ Hb)).
      simpl. destruct (T_lt x y); [done|]. destruct (T_lt y x); [done|].
      rewrite (bind_Ok _ _ _ _ _
                 (pre_increment_eq (V:=ReadOnly) (Iter (heap_node a)) s _ Ha)).
      by rewrite (bind_Ok _ _ _ _ _
                    (pre_increment_eq (V:=ReadOnly) (Iter (heap_node b)) s _ Hb)).
    + destruct (T_lt x y) eqn:Hxy.
      * split; [|done]. intros _. by apply first_difference_here.
      * rewrite (first_difference_later _ _ _ _ Hxy).
        destruct (T_lt y x).
        -- split; [done|]. by intros [? _].
        -- rewrite Hr. split; [by intros ?; split|by intros [_ ?]].
Qed.

Lemma operator_lt_spec s lhs rhs ca cb fuel :
  wf_list s lhs ca → wf_list s rhs cb → length ca < fuel →
  ∃ r, operator_lt T_lt fuel lhs rhs s = Ok r s
       ∧ (r = true ↔ spec_less T_lt ca.*2 cb.*2).
Proof.
  intros Hwa Hwb Hfuel.
  pose proof Hwa as [(oa & Hoa & Hna & _) Ha _ _].
  pose proof Hwb as [(ob & Hob & Hnb & _) Hb _ _].
  unfold operator_lt, spec_less. rewrite !length_fmap.
  rewrite (bind_Ok _ _ _ _ _ (wf_GetSize _ _ _ Hwa)).
  rewrite (bind_Ok _ _ _ _ _ (wf_GetSize _ _ _ Hwb)).
  destruct (decide (length ca < length cb)) as [Hlt|Hnlt].
  { rewrite bool_decide_eq_true_2 by lia. exists true. split; [done|]. split; [|done].
    intros _. by left. }
  rewrite bool_decide_eq_false_2 by lia.
  rewrite (bind_Ok _ _ _ _ _ (wf_GetSize _ _ _ Hwa)).
  rewrite (bind_Ok _ _ _ _ _ (wf_GetSize _ _ _ Hwb)).
  destruct (decide (length cb < length ca)) as [Hgt|Hngt].
  { rewrite bool_decide_eq_true_2 by lia. exists false. split; [done|]. split; [done|].
    intros [?|[? _]]; lia. }
  rewrite bool_decide_eq_false_2 by lia.
  destruct (std_lexicographical_compare_spec s ca cb fuel Ha Hb ltac:(lia) Hfuel)
    as (r & E & Hr).
  exists r. split.
  - rewrite (bind_Ok _ _ _ _ _ (begin_eq s lhs oa Hoa)), Hna. unfold end_ at 1.
    rewrite (bind_Ok _ _ s (Iter nullptr) s) by done.
    rewrite (bind_Ok _ _ _ _ _ (begin_eq s rhs ob Hob)), Hnb. unfold end_.
    by rewrite (bind_Ok _ _ s (Iter nullptr) s) by done.
  - rewrite Hr. split; [intros H; right; split; [lia|done]|].
    intros [?|[_ ?]]; [lia|done].
Qed.

(** ** What a failing copy can have touched *)

Lemma on_exit_bind {A B} (m : M (T:=T) A) (k : A → M B) s (P : Store → Prop) :
  (∀ s', m s = Throw s' → P s') →
  (∀ a s', m s = Ok a s' → on_exit P (k a s')) →
  on_exit P (bind m k s).
Proof. intros Ht Hk. unfold bind. destruct (m s); simpl; eauto. Qed.

Lemma noexcept_not_Throw {A} (m : M (T:=T) A) s s' : noexcept m s ≠ Throw s'.
Proof. unfold noexcept. by destruct (m s). Qed.

Lemma get_value_pure s p x s' : get_value p s = Ok x s' → s' = s.
Proof.
  unfold get_value, bind, read. destruct (node_at s p); [|done].
  unfold ret. by intros [= _ <-].
Qed.

Lemma deref_pure {V} (it : BasicIterator V) s x s' : deref it s = Ok x s' → s' = s.
Proof.
  unfold deref, noexcept. destruct (get_value (node_ it) s) eqn:E; try done.
  intros [= _ <-]. by eapply get_value_pure.
Qed.

Lemma pre_increment_pure {V} (it : BasicIterator V) s it' s' :
  pre_increment it s = Ok it' s' → s' = s.
Proof.
  unfold pre_increment, noexcept, bind. case_bool_decide.
  - destruct (get_next (node_ it) s) eqn:E; try done.
    unfold ret. intros [= _ <-]. by eapply get_next_pure.
  - unfold ret. by intros [= _ <-].
Qed.

(** The store is unharmed with respect to [s]: all of [s] but the object at
    [temp] is still there, unchanged. *)
Lemma Assign_step_harmless s temp x last_new st :
  modifies temp [] s st →
  (Z.of_nat (size (heap st)) ≤ max_nodes)%Z →
  (last_new = nullptr ∨ ∃ a, last_new = heap_node a ∧ heap s !! a = None) →
  match Assign_step temp x last_new st with
  | Ok node st' =>
      modifies temp [] s st' ∧ (Z.of_nat (size (heap st')) ≤ max_nodes)%Z
      ∧ ∃ a, node = heap_node a ∧ heap s !! a = None
  | Throw st' => st' = st
  | _ => True
  end.
Proof.
  intros (Hlim & Hobjs & Hheap) Hb Hlast. unfold Assign_step, bind, operator_new.
  destruct (can_allocate st) eqn:Hcan; [|done].
  apply can_allocate_true in Hcan as [_ Hroom].
  set (n := fresh (dom (heap st))).
  pose proof (fresh_heap_None st) as Hn. fold n in Hn.
  assert (heap s !! n = None) as Hsn.
  { destruct (heap s !! n) eqn:E; [|done]. rewrite <- (Hheap n) in E; [congruence| |eauto].
    intros Hin. by apply elem_of_nil in Hin. }
  assert (∀ b, is_Some (heap s !! b) → b ≠ n) as Hlive.
  { intros b [y Hy] ->. congruence. }
  unfold get_next, bind, read. simpl.
  destruct (objs st !! temp) as [o|] eqn:Ho; [|done]. unfold ret.
  assert (∀ st', heap st' = <[n := {| value := x; next_node := nullptr |}]> (heap st) →
                 (Z.of_nat (size (heap st')) ≤ max_nodes)%Z) as Hsize.
  { intros st' ->. rewrite map_size_insert_None by done. lia. }
  case_bool_decide.
  - unfold set_next, bind, read, write. simpl. rewrite Ho. simpl. rewrite Ho.
    split; [|split; [by apply Hsize|by exists n]].
    split; [done|]. split; simpl.
    + intros c Hc. rewrite lookup_insert_ne by done. by apply Hobjs.
    + intros b Hb' Hb''. rewrite lookup_insert_ne by (by apply not_eq_sym, Hlive).
      by apply Hheap.
  - destruct Hlast as [->|(a & -> & Ha)]; [done|].
    unfold set_next, bind, read, write. simpl.
    destruct (<[n:=_]> (heap st) !! a) as [nd|] eqn:Ea; [|done]. simpl. rewrite Ea.
    split; [|split; [|by exists n]].
    + split; [done|]. split; simpl; [done|].
      intros b Hb' Hb''. rewrite lookup_insert_ne.
      * rewrite lookup_insert_ne by (by apply not_eq_sym, Hlive). by apply Hheap.
      * intros ->. rewrite Ha in Hb''. by destruct Hb''.
    + simpl. rewrite map_size_insert_Some by done.
      rewrite map_size_insert_None by done. lia.
Qed.

Lemma Assign_iter_harmless s temp : ∀ fuel (it last : ConstIterator) last_new st,
  modifies temp [] s st →
  (Z.of_nat (size (heap st)) ≤ max_nodes)%Z →
  (last_new = nullptr ∨ ∃ a, last_new = heap_node a ∧ heap s !! a = None) →
  on_exit (λ st', modifies temp [] s st' ∧ (Z.of_nat (size (heap st')) ≤ max_nodes)%Z)
          (Assign_iter fuel temp it last last_new st).
Proof.
  induction fuel as [|fuel IH]; intros it last last_new st Hmod Hb Hlast; [done|].
  simpl. destruct (iter_ne it last); [|done].
  apply on_exit_bind.
  - intros st' E. by apply noexcept_not_Throw in E.
  - intros x st' ->%deref_pure.
    pose proof (Assign_step_harmless s temp x last_new st Hmod Hb Hlast) as H.
    apply on_exit_bind.
    + intros st' E. rewrite E in H. by subst.
    + intros node st1 E. rewrite E in H. destruct H as (Hmod1 & Hb1 & Hnode).
      apply on_exit_bind.
      * intros st' E'. by apply noexcept_not_Throw in E'.
      * intros it' st2 ->%pre_increment_pure. apply IH; auto.
Qed.

(** A copy constructor that throws leaves every object and every cell that
    existed before as it was. *)
Lemma construct_copy_throw fuel temp other s s' :
  (Z.of_nat (size (heap s)) ≤ max_nodes)%Z →
  construct_copy dflt fuel temp other s = Throw s' →
  modifies temp [] s s' ∧ (Z.of_nat (size (heap s')) ≤ max_nodes)%Z.
Proof.
  intros Hb. unfold construct_copy, constructing.
  match goal with |- context [match ?body s with _ => _ end] =>
    assert (on_exit (λ st', modifies temp [] s st'
                            ∧ (Z.of_nat (size (heap st')) ≤ max_nodes)%Z) (body s)) as H
  end.
  { apply on_exit_bind.
    - unfold GetSize, get_size. intros st'. by destruct (objs s !! other).
    - intros n st' E. assert (st' = s) as ->.
      { revert E. unfold GetSize, get_size. destruct (objs s !! other); [|done].
        by intros [= _ <-]. }
      apply on_exit_bind; [done|]. intros [] s1 [= <-].
      apply on_exit_bind.
      + intros st'. unfold begin, bind, get_next, bind, read.
        by destruct (node_at _ _).
      + intros first st1 E1.
        assert (st1 = with_objs
                        (<[temp := {| head_ := {| value := dflt; next_node := nullptr |};
                                      size_ := n |}]> (objs s)) s) as ->.
        { revert E1. unfold begin, bind. destruct (get_next _ _) eqn:E2; try done.
          unfold ret. intros [= _ <-]. by eapply get_next_pure. }
        apply on_exit_bind; [done|]. intros last st2 [= <- <-].
        apply Assign_iter_harmless; [|done|by left].
        split; [done|]. split; [|done]. intros c Hc. simpl.
        by rewrite lookup_insert_ne. }
  revert H. destruct (bind _ _ s) as [a st|st| | |]; try done. intros H [= <-].
  destruct H as [(Hlim & Hobjs & Hheap) Hb']. split; [|done].
  split; [done|]. split; [|done]. intros c Hc. simpl.
  rewrite lookup_delete_ne by done. by apply Hobjs.
Qed.

(** Copy assignment throws exactly when it is not a self-assignment and the
    copy constructor of the temporary throws. *)
Lemma operator_assign_throw fuel this rhs s s' :
  operator_assign dflt fuel this rhs s = Throw s'
  ↔ this ≠ rhs ∧ construct_copy dflt fuel (fresh (dom (objs s))) rhs s = Throw s'.
Proof.
  unfold operator_assign, when. case_bool_decide as Hne.
  2: { split; [done|]. by intros [? _]. }
  unfold bind at 1, local_object.
  split.
  - intros E. split; [done|]. revert E. unfold bind at 1.
    destruct (construct_copy _ _ _ _ s) as [[] s1|s1| | |]; try done.
    unfold bind at 1. destruct (swap _ _ s1) as [[] s2|s2| | |] eqn:Esw; try done.
    + unfold destroy, bind. destruct (Clear _ _ s2) as [[] s3|s3| | |] eqn:Ecl; try done.
      by apply noexcept_not_Throw in Ecl.
    + by apply noexcept_not_Throw in Esw.
  - intros [_ E]. by rewrite (bind_Throw _ _ _ _ E).
Qed.

Lemma Assign_values_returned values : ∀ st this cd last_new st',
  linked st this cd →
  (cd ≠ [] → last_new = last_ptr this cd) →
  (Z.of_nat (size (heap st)) ≤ max_nodes)%Z →
  Assign_values this values last_new st = Ok tt st' →
  ∃ cd', cd'.*2 = values ∧ extends this cd cd' st st'
         ∧ (Z.of_nat (size (heap st')) ≤ max_nodes)%Z.
Proof.
  induction values as [|x values IH]; intros st this cd last_new st' Hl Hlast Hb E.
  - injection E as <-. exists []. split; [done|]. split; [by apply extends_nil|done].
  - simpl in E. pose proof (Assign_step_spec st this cd x last_new Hl Hlast) as H.
    destruct (can_allocate st) eqn:Hcan; [|by rewrite (bind_Throw _ _ _ _ H) in E].
    destruct H as (n & st1 & E1 & Hext1). rewrite (bind_Ok _ _ _ _ _ E1) in E.
    apply can_allocate_true in Hcan as [_ Hroom].
    destruct (IH st1 this (cd ++ [(n, x)]) (heap_node n) st') as (cd2 & Hv & Hext2 & Hb2);
      [apply Hext1|apply last_ptr_snoc_ne| |done|].
    + rewrite (ext_size _ _ _ _ _ Hext1). simpl. lia.
    + exists ((n, x) :: cd2). split; [by rewrite fmap_cons, Hv|]. split; [|done].
      by apply (extends_trans this cd [(n, x)] cd2 st st1 st').
Qed.

(** Both constructors establish the invariant. *)
Lemma constructed_wf this s : constructed dflt this s → ∃ cells, wf_list s this cells.
Proof.
  intros [s0 s1 Hb E|values s0 s1 Hb E].
  - destruct (construct_default_spec this s0 Hb) as (s' & E' & Hwf & _).
    exists []. congruence.
  - revert E. unfold construct_from_values, constructing.
    set (s2 := with_objs
                 (<[this := {| head_ := {| value := dflt; next_node := nullptr |};
                               size_ := Z.of_nat (length values) |}]> (objs s0)) s0).
    rewrite (bind_Ok _ _ s0 tt s2) by done.
    destruct (Assign_values this values nullptr s2) as [[] st| | | |] eqn:E; try done.
    intros [= <-].
    destruct (Assign_values_returned values s2 this [] nullptr st) as (cd & Hv & Hext & Hb');
      try done.
    { eexists. simpl. rewrite lookup_insert_eq. repeat split; try done. apply NoDup_nil_2. }
    exists cd.
    destruct (built_wf s0 s2 st this (length values) cd) as (Hwf & _); try done.
    + pose proof (ext_size _ _ _ _ _ Hext) as Hsz. simpl in Hsz. lia.
    + by rewrite <- Hv, length_fmap.
Qed.

(** Allocating a node nobody links to leaves a container as it is. *)
Lemma wf_garbage s this cells nd :
  wf_list s this cells → can_allocate s = true →
  wf_list (with_heap (<[fresh (dom (heap s)) := nd]> (heap s)) s) this cells.
Proof.
  intros [Hobj Hseg Hnd Hb] [_ Hroom]%can_allocate_true.
  pose proof (fresh_heap_None s) as Hn. split; simpl; try done.
  - eapply is_seg_frame; [|done]. intros a Ha. apply lookup_insert_ne. intros <-.
    destruct (is_seg_live _ _ _ _ Hseg Ha). congruence.
  - rewrite map_size_insert_None by done. lia.
Qed.

(** ** Cursors *)

Lemma BasicIterator_from_mutable_end {V} (other : Iterator) s :
  node_ other = nullptr →
  BasicIterator_from_mutable (V:=V) other s = Ok (Iter nullptr) s.
Proof. intros E. apply noexcept_Ok. by rewrite E. Qed.

Lemma BasicIterator_from_mutable_live {V} (other : Iterator) s nd :
  node_at s (node_ other) = Some nd → can_allocate s = true →
  BasicIterator_from_mutable (V:=V) other s
  = Ok (Iter (node_ other))
       (with_heap (<[fresh (dom (heap s)) :=
                       {| value := value nd; next_node := next_node nd |}]> (heap s)) s).
Proof.
  intros E Hcan. apply noexcept_Ok. cbv zeta.
  rewrite bool_decide_eq_true_2 by (intros H; by rewrite <- H in E).
  unfold when.
  erewrite bind_Ok; [done|].
  rewrite (bind_Ok _ _ _ _ _ (get_value_eq _ _ _ E)).
  rewrite (bind_Ok _ _ _ _ _ (get_next_eq _ _ _ E)).
  by rewrite (bind_Ok _ _ _ _ _ (operator_new_ok _ _ Hcan)).
Qed.

Lemma BasicIterator_from_mutable_exhausted {V} (other : Iterator) s nd :
  node_at s (node_ other) = Some nd → can_allocate s = false →
  BasicIterator_from_mutable (V:=V) other s = Aborted.
Proof.
  intros E Hcan. unfold BasicIterator_from_mutable, noexcept. cbv zeta.
  rewrite bool_decide_eq_true_2 by (intros H; by rewrite <- H in E).
  unfold when.
  erewrite bind_Throw; [done|].
  rewrite (bind_Ok _ _ _ _ _ (get_value_eq _ _ _ E)).
  rewrite (bind_Ok _ _ _ _ _ (get_next_eq _ _ _ E)).
  by rewrite (bind_Throw _ _ _ _ (operator_new_throw _ _ Hcan)).
Qed.

Lemma node_at_garbage s p nd nd' :
  node_at s p = Some nd →
  node_at (with_heap (<[fresh (dom (heap s)) := nd']> (heap s)) s) p = Some nd.
Proof.
  destruct p as [|a|c]; simpl; try done. intros E. rewrite lookup_insert_ne; [done|].
  intros <-. pose proof (fresh_heap_None s). congruence.
Qed.

(** What the postfix increment of a mutable cursor at a live node costs: the
    copy it keeps as [old_value] allocates a node that nothing links to, and
    the call ends the program when that allocation fails. *)
Lemma post_increment_mutable_exhausted (it : Iterator) s nd :
  node_at s (node_ it) = Some nd → can_allocate s = false →
  post_increment it s = Aborted.
Proof.
  intros E Hcan. unfold post_increment, noexcept, bind. simpl.
  by rewrite (BasicIterator_from_mutable_exhausted it s nd E Hcan).
Qed.

(** ** The properties of section 8 of the specification *)

(** C1, size invariant.  In every state a container goes through, from its
    construction on and after any number of [PushFront], [PopFront],
    [InsertAfter] and [EraseAfter] calls made under their preconditions
    (whether they return or throw), following the links from the sentinel
    reaches the null pointer after some number [n] of real cells, and
    [GetSize()] returns [n]. *)
Theorem size_invariant this s :
  reachable dflt NDEBUG this s →
  ∃ n, reachable_cells s this = Some n ∧ GetSize this s = Ok (Z.of_nat n) s.
Proof.
  intros (s1 & Hc & Hsteps).
  destruct (constructed_wf this s1 Hc) as (cells1 & Hwf1).
  destruct (steps_preserve this s1 s cells1 Hwf1 Hsteps) as (cells & Hwf).
  exists (length cells). split.
  - by apply wf_reachable_cells.
  - by apply wf_GetSize.
Qed.

(** C4, [InsertAfter(before_begin(), v)] against [PushFront(v)].  On a
    container with cells [cells], when the allocations succeed (one node for
    either call, and one more for the conversion of the cursor when the
    mutable overload of [before_begin] is used), both calls return, both
    leave the element sequence [v :: cells] and the size [length cells + 1],
    and the cursor that [InsertAfter] returns is [begin()] of the result.
    With the read-only overload the two resulting stores are the same. *)
Theorem InsertAfter_before_begin_is_PushFront (V : access) s this cells v :
  wf_list s this cells →
  (Z.of_nat (size (heap s)) + match V with Mutable => 2 | ReadOnly => 1 end
   ≤ Z.min (mem_limit s) max_nodes)%Z →
  ∃ s1 s2 it,
    PushFront this v s = Ok tt s1
    ∧ InsertAfter_before_begin V this v s = Ok it s2
    ∧ elements s1 this = Some (v :: cells.*2)
    ∧ elements s2 this = Some (v :: cells.*2)
    ∧ size_of s1 this = Some (Z.of_nat (S (length cells)))
    ∧ size_of s2 this = Some (Z.of_nat (S (length cells)))
    ∧ begin this s2 = Ok it s2
    ∧ (V = ReadOnly → s2 = s1).
Proof.
  intros Hwf Hroom.
  assert (can_allocate s = true) as Hcan by (apply can_allocate_room; destruct V; lia).
  pose proof (PushFront_spec s this cells v Hwf) as HP. rewrite Hcan in HP.
  destruct HP as (a1 & s1 & _ & E1 & Hwf1 & _).
  assert (∀ s0, wf_list s0 this cells → can_allocate s0 = true →
                ∃ a s2, InsertAfter this (Iter (head_of this)) v s0
                        = Ok (Iter (heap_node a)) s2
                        ∧ wf_list s2 this ((a, v) :: cells)) as HI.
  { intros s0 Hwf0 Hcan0.
    pose proof (InsertAfter_spec s0 this [] cells (Iter (head_of this)) v Hwf0 eq_refl) as H.
    rewrite Hcan0 in H. destruct H as (a & s2 & _ & E & Hwf2 & _). by exists a, s2. }
  assert (∀ a s2, wf_list s2 this ((a, v) :: cells) →
                  elements s2 this = Some (v :: cells.*2)
                  ∧ size_of s2 this = Some (Z.of_nat (S (length cells)))
                  ∧ begin (V:=Mutable) this s2 = Ok (Iter (heap_node a)) s2) as Hobs.
  { intros a s2 Hwf2. split; [by rewrite (wf_elements _ _ _ Hwf2)|].
    split; [by rewrite (wf_size_of _ _ _ Hwf2)|].
    destruct Hwf2 as [(o & Ho & Hn & _) _ _ _]. by rewrite (begin_eq _ _ _ Ho), Hn. }
  destruct (Hobs a1 s1 Hwf1) as (Hel1 & Hsz1 & _).
  destruct V.
  - pose proof Hwf as [(o & Ho & _) _ _ _].
    pose proof (BasicIterator_from_mutable_live (V:=ReadOnly) (Iter (head_of this)) s _
                  (node_at_head _ _ _ Ho) Hcan) as Econv.
    simpl in Econv.
    destruct (HI _ (wf_garbage s this cells
                      {| value := value (head_ o); next_node := next_node (head_ o) |}
                      Hwf Hcan)) as (a & s2 & E2 & Hwf2).
    { apply can_allocate_room. simpl. rewrite map_size_insert_None; [lia|].
      apply fresh_heap_None. }
    destruct (Hobs a s2 Hwf2) as (Hel2 & Hsz2 & Hbeg).
    exists s1, s2, (Iter (heap_node a)). repeat (split; [done|]). split; [|done].
    unfold InsertAfter_before_begin, before_begin.
    rewrite (bind_Ok _ _ s (Iter (head_of this)) s) by done. simpl.
    by rewrite (bind_Ok _ _ _ _ _ Econv).
  - destruct (HI s Hwf Hcan) as (a & s2 & E2 & Hwf2).
    destruct (Hobs a s2 Hwf2) as (Hel2 & Hsz2 & Hbeg).
    exists s1, s2, (Iter (heap_node a)). repeat (split; [done|]).
    intros _.
    rewrite (PushFront_as_InsertAfter this v (Iter (head_of this)) s eq_refl) in E1.
    rewrite (bind_Ok _ _ _ _ _ E2) in E1. by injection E1.
Qed.

(** C5, [PushFront] then [PopFront].  On a container with cells [cells],
    when the allocation of [PushFront(v)] succeeds, [PushFront(v)] returns,
    the [PopFront()] that follows returns, and the container has the cells,
    hence the element sequence and the size, it had before. *)
Theorem PushFront_PopFront_inverse s this cells v :
  wf_list s this cells →
  can_allocate s = true →
  ∃ s1 s2,
    PushFront this v s = Ok tt s1
    ∧ PopFront NDEBUG this s1 = Ok tt s2
    ∧ elements s2 this = elements s this
    ∧ size_of s2 this = size_of s this
    ∧ cells_of s2 this = cells_of s this.
Proof.
  intros Hwf Hcan.
  pose proof (PushFront_spec s this cells v Hwf) as HP. rewrite Hcan in HP.
  destruct HP as (a & s1 & _ & E1 & Hwf1 & _).
  destruct (PopFront_spec s1 this a v cells Hwf1) as (s2 & E2 & Hwf2 & _).
  exists s1, s2. split; [done|]. split; [done|].
  rewrite (wf_elements _ _ _ Hwf2), (wf_elements _ _ _ Hwf).
  rewrite (wf_size_of _ _ _ Hwf2), (wf_size_of _ _ _ Hwf).
  by rewrite (wf_cells_of _ _ _ Hwf2), (wf_cells_of _ _ _ Hwf).
Qed.

(** C6 as amended, erasing the last element.  On a container whose last
    real cell is [a], [EraseAfter(pos)] with [pos] at the cell right before
    [a] (the sentinel when [a] is the only cell) returns a cursor equal to
    [end()], and leaves the cells before [a]. *)
Theorem EraseAfter_before_last_cell s this pre a v (pos : ConstIterator) :
  wf_list s this (pre ++ [(a, v)]) →
  node_ pos = last_ptr this pre →
  ∃ (it e : Iterator) s',
    EraseAfter this pos s = Ok it s'
    ∧ end_ (V:=Mutable) this s' = Ok e s'
    ∧ iter_eq it e = true
    ∧ elements s' this = Some pre.*2
    ∧ size_of s' this = Some (Z.of_nat (length pre)).
Proof.
  intros Hwf Hpos.
  destruct (EraseAfter_spec s this pre a v [] pos Hwf Hpos) as (s' & E & Hwf' & _).
  rewrite app_nil_r in Hwf'.
  exists (Iter nullptr), (Iter nullptr), s'. split; [done|]. split; [done|].
  split; [done|]. by rewrite (wf_elements _ _ _ Hwf'), (wf_size_of _ _ _ Hwf').
Qed.

(** C10, [EraseAfter(before_begin())] on an empty container.  The guard
    [!IsEmpty()] skips the removal: the call returns a cursor equal to
    [end()] and the store, hence the empty container and its size 0, is
    untouched. *)
Theorem EraseAfter_before_begin_empty s this (pos : ConstIterator) :
  wf_list s this [] →
  before_begin this s = Ok pos s →
  ∃ it e : Iterator,
    EraseAfter this pos s = Ok it s
    ∧ end_ (V:=Mutable) this s = Ok e s
    ∧ iter_eq it e = true
    ∧ elements s this = Some []
    ∧ size_of s this = Some 0%Z.
Proof.
  intros Hwf [= <-].
  exists (Iter nullptr), (Iter nullptr).
  rewrite (wf_elements _ _ _ Hwf), (wf_size_of _ _ _ Hwf).
  split; [|done].
  destruct Hwf as [(o & Ho & Hn & Hs) _ _ _]. simpl in Hn, Hs.
  apply noexcept_Ok. rewrite (bind_Ok _ _ _ _ _ (IsEmpty_eq _ _ _ Ho)).
  rewrite bool_decide_eq_true_2 by done. simpl.
  rewrite (bind_Ok _ _ s tt s) by done.
  by rewrite (bind_Ok _ _ _ _ _ (get_next_eq _ _ _ (node_at_head _ _ _ Ho))), Hn.
Qed.

(** X19, how far [operator++] is total.  Either flavour of cursor, in any
    store.  At the end position the prefix and the postfix increment return
    and leave the cursor where it is, the store untouched.  At a live node
    (a real cell or a sentinel) the prefix increment returns with the cursor
    at the node's successor, the store untouched.  The postfix increment
    does the same and hands back the old position when the cursor is
    read-only, or when a node can be allocated: the copy it keeps of a
    mutable cursor runs the constructor of lines 34-39, which leaves the
    objects and the live nodes as they are and one node more in the heap.
    The case left out, a mutable cursor at a live node when no node can be
    allocated, is [post_increment_mutable_exhausted]: the call does not
    return. *)
Theorem increment_total {V} (it : BasicIterator V) s :
  (node_ it = nullptr →
     pre_increment it s = Ok it s ∧ post_increment it s = Ok (it, it) s)
  ∧ (∀ nd, node_at s (node_ it) = Some nd →
       pre_increment it s = Ok (Iter (next_node nd)) s
       ∧ (V = ReadOnly ∨ can_allocate s = true →
          ∃ s', post_increment it s = Ok (it, Iter (next_node nd)) s'
                ∧ (V = ReadOnly → s' = s)
                ∧ objs s' = objs s
                ∧ heap s ⊆ heap s')).
Proof.
  destruct it as [p]. simpl. split.
  - intros ->. split; [by apply pre_increment_end|].
    apply noexcept_Ok. destruct V; simpl.
    + rewrite (bind_Ok _ _ _ _ _ (BasicIterator_from_mutable_end (Iter nullptr) s eq_refl)).
      by rewrite (bind_Ok _ _ _ _ _ (pre_increment_end (V:=Mutable) (Iter nullptr) s eq_refl)).
    + rewrite (bind_Ok _ _ s (Iter nullptr) s) by done.
      by rewrite (bind_Ok _ _ _ _ _ (pre_increment_end (V:=ReadOnly) (Iter nullptr) s eq_refl)).
  - intros nd Hnd. split; [by apply (pre_increment_eq (Iter p))|].
    intros Hcopy. destruct V.
    + destruct Hcopy as [?|Hcan]; [done|].
      exists (with_heap (<[fresh (dom (heap s)) :=
                             {| value := value nd; next_node := next_node nd |}]>
                           (heap s)) s).
      split; [|split; [done|split; [done|]]].
      * apply noexcept_Ok. simpl.
        rewrite (bind_Ok _ _ _ _ _
                   (BasicIterator_from_mutable_live (Iter p) s nd Hnd Hcan)).
        by rewrite (bind_Ok _ _ _ _ _
                      (pre_increment_eq (V:=Mutable) (Iter p) _ nd
                         (node_at_garbage s p nd _ Hnd))).
      * simpl. apply insert_subseteq, fresh_heap_None.
    + exists s. split; [|done].
      apply noexcept_Ok. simpl. rewrite (bind_Ok _ _ s (Iter p) s) by done.
      by rewrite (bind_Ok _ _ _ _ _ (pre_increment_eq (V:=ReadOnly) (Iter p) s nd Hnd)).
Qed.

(** Mutating one container leaves another one, whose cells are not its
    cells, as it is. *)
Lemma steps_frame this other s s' cells cd :
  wf_list s other cells → wf_list s this cd → other ≠ this →
  (∀ a, a ∈ cd.*1 → a ∉ cells.*1) →
  rtc (step NDEBUG this) s s' →
  wf_list s' other cells.
Proof.
  intros Hother Hthis Hne Hsep Hsteps. revert cd Hother Hthis Hsep.
  induction Hsteps as [s|s s1 s2 Hstep _ IH]; intros cd Hother Hthis Hsep; [done|].
  destruct (step_preserves _ _ _ _ Hthis Hstep) as (cd1 & Hthis1 & Hmod & Hnew).
  assert (wf_list s1 other cells) as Hother1.
  { eapply modifies_wf_other; [exact Hmod|done| |apply Hthis1|done].
    intros a Ha Hin. by apply (Hsep a). }
  apply (IH cd1); [done|done|].
  intros a Ha Hin. destruct (Hnew a Ha) as [Hold|Hfresh]; [by apply (Hsep a)|].
  destruct (is_seg_live _ _ _ _ (wf_chain _ _ _ Hother) Hin). congruence.
Qed.

(** C3, round-trip copy.  From a container [C] with cells [cells], given
    fuel and room for [length cells] nodes, the copy constructor returns
    and builds at [D] a container with the same values in the same order and
    the same size, of cells none of which is a cell of [C]; [D == C] returns
    true when the elements' [==] is reflexive; and after any number of
    [PushFront], [PopFront], [InsertAfter] and [EraseAfter] calls on [D],
    made under their preconditions, [C] has the element sequence and the
    size it had. *)
Theorem copy_round_trip fuel s C D cells :
  wf_list s C cells →
  objs s !! D = None →
  length cells < fuel →
  (Z.of_nat (size (heap s) + length cells) ≤ Z.min (mem_limit s) max_nodes)%Z →
  ∃ s' cd,
    construct_copy dflt fuel D C s = Ok tt s'
    ∧ cells_of s' D = Some cd
    ∧ (∀ a, a ∈ cd.*1 → a ∉ cells.*1)
    ∧ elements s' D = Some cells.*2
    ∧ size_of s' D = Some (Z.of_nat (length cells))
    ∧ elements s' C = Some cells.*2
    ∧ size_of s' C = Some (Z.of_nat (length cells))
    ∧ ((∀ x, T_eq x x = true) → operator_eq T_eq fuel D C s' = Ok true s')
    ∧ ∀ s'', rtc (step NDEBUG D) s' s'' →
             elements s'' C = Some cells.*2
             ∧ size_of s'' C = Some (Z.of_nat (length cells)).
Proof.
  intros Hwf Hnew Hfuel Hroom.
  destruct (construct_copy_spec fuel s D C cells Hwf Hnew Hfuel Hroom)
    as (s' & cd & E & Hv & HwfD & HwfC & _ & Hfresh).
  assert (length cd = length cells) as Hlen.
  { by rewrite <- (length_fmap snd cd), Hv, length_fmap. }
  assert (∀ a, a ∈ cd.*1 → a ∉ cells.*1) as Hsep.
  { intros a Ha Hin. destruct (is_seg_live _ _ _ _ (wf_chain _ _ _ Hwf) Hin) as [y Hy].
    rewrite (Hfresh a Ha) in Hy. done. }
  assert (C ≠ D) as Hne.
  { intros ->. destruct Hwf as [(o & Ho & _) _ _ _]. congruence. }
  exists s', cd. split; [done|]. split; [by apply wf_cells_of|]. split; [done|].
  split; [by rewrite (wf_elements _ _ _ HwfD), Hv|].
  split; [by rewrite (wf_size_of _ _ _ HwfD), Hlen|].
  split; [by apply wf_elements|]. split; [by apply wf_size_of|]. split.
  - intros Hrefl.
    destruct (operator_eq_spec s' D C cd cells fuel HwfD HwfC ltac:(lia)) as (r & Er & Hr).
    assert (r = true) as ->; [|done]. apply Hr. rewrite Hv. split; [done|].
    intros i x y Hx Hy. assert (x = y) as -> by congruence. apply Hrefl.
  - intros s'' Hsteps.
    pose proof (steps_frame D C s' s'' cells cd HwfC HwfD Hne Hsep Hsteps) as HwfC'.
    split; [by apply wf_elements|by apply wf_size_of].
Qed.

(** C7, copy-assignment safety.  Assigning a container to itself returns
    with the store untouched.  Assignment throws exactly when the copy
    constructor of its temporary throws, and the store it then leaves holds
    the destination with the cells, the element sequence and the size it
    had. *)
Theorem copy_assignment_safety fuel this rhs s cells :
  wf_list s this cells →
  operator_assign dflt fuel this this s = Ok tt s
  ∧ ∀ s', operator_assign dflt fuel this rhs s = Throw s' →
          construct_copy dflt fuel (fresh (dom (objs s))) rhs s = Throw s'
          ∧ cells_of s' this = Some cells
          ∧ elements s' this = Some cells.*2
          ∧ size_of s' this = Some (Z.of_nat (length cells)).
Proof.
  intros Hwf. split.
  - unfold operator_assign. by rewrite bool_decide_eq_false_2 by (by intros []).
  - intros s' [Hne E]%operator_assign_throw. split; [done|].
    destruct (construct_copy_throw fuel _ rhs s s' (wf_heap _ _ _ Hwf) E) as [Hmod Hb].
    assert (wf_list s' this cells) as Hwf'.
    { eapply modifies_wf_other; [exact Hmod| | |done|done].
      - intros ->. destruct Hwf as [(o & Ho & _) _ _ _].
        pose proof (is_fresh (dom (objs s))) as Hf.
        apply Hf, elem_of_dom. by rewrite Ho.
      - intros a _ Hin. by apply elem_of_nil in Hin. }
    split; [by apply wf_cells_of|]. split; [by apply wf_elements|by apply wf_size_of].
Qed.

(** C8, container equality.  For two containers with cells [ca] and [cb]
    and fuel for [ca], [lhs == rhs] returns, the store untouched, and what
    it returns is true exactly when the two element sequences have the same
    length and are equal position by position under the elements' [==]. *)
Theorem operator_eq_correct s lhs rhs ca cb fuel :
  wf_list s lhs ca → wf_list s rhs cb → length ca < fuel →
  ∃ r, operator_eq T_eq fuel lhs rhs s = Ok r s
       ∧ elements s lhs = Some ca.*2
       ∧ elements s rhs = Some cb.*2
       ∧ (r = true ↔ spec_equal T_eq ca.*2 cb.*2).
Proof.
  intros Ha Hb Hfuel.
  destruct (operator_eq_spec s lhs rhs ca cb fuel Ha Hb Hfuel) as (r & E & Hr).
  exists r. split; [done|]. split; [by apply wf_elements|]. split; [by apply wf_elements|].
  done.
Qed.

(** C2, ordering.  For two containers with cells [ca] and [cb] and fuel for
    [ca], [lhs < rhs] returns, the store untouched, and what it returns is
    true exactly when [lhs] is shorter, or the two are of the same length
    and at the first position where their elements differ in rank the
    element of [lhs] is the smaller one. *)
Theorem operator_lt_correct s lhs rhs ca cb fuel :
  wf_list s lhs ca → wf_list s rhs cb → length ca < fuel →
  ∃ r, operator_lt T_lt fuel lhs rhs s = Ok r s
       ∧ elements s lhs = Some ca.*2
       ∧ elements s rhs = Some cb.*2
       ∧ (r = true ↔ spec_less T_lt ca.*2 cb.*2).
Proof.
  intros Ha Hb Hfuel.
  destruct (operator_lt_spec s lhs rhs ca cb fuel Ha Hb Hfuel) as (r & E & Hr).
  exists r. split; [done|]. split; [by apply wf_elements|]. split; [by apply wf_elements|].
  done.
Qed.

(** * Further properties of the code *)

(** ** [Clear], the destructor, [swap], copy assignment *)

Lemma Clear_loop_spec cells : ∀ fuel s this,
  linked s this cells → length cells < fuel →
  ∃ s' o o',
    Clear_loop fuel this s = Ok tt s'
    ∧ objs s !! this = Some o
    ∧ objs s' = <[this := o']> (objs s)
    ∧ size_ o' = size_ o
    ∧ next_node (head_ o') = nullptr
    ∧ mem_limit s' = mem_limit s
    ∧ (∀ a, a ∈ cells.*1 → heap s' !! a = None)
    ∧ (∀ a, a ∉ cells.*1 → heap s' !! a = heap s !! a)
    ∧ size (heap s') + length cells = size (heap s).
Proof.
  induction cells as [|[a v] cells IH]; intros fuel s this (o & Ho & Hn & Hseg & Hnd) Hfuel;
    (destruct fuel as [|fuel]; [simpl in Hfuel; lia|]); simpl in Hn.
  - exists s, o, o. simpl.
    rewrite (bind_Ok _ _ _ _ _ (get_next_eq _ _ _ (node_at_head _ _ _ Ho))), Hn.
    rewrite bool_decide_eq_false_2 by (by intros []).
    split; [done|]. split; [done|]. split; [by rewrite insert_id|].
    repeat split; try done. intros a Ha. by apply elem_of_nil in Ha.
  - destruct Hseg as [Ha Hseg]. simpl in Hfuel.
    apply NoDup_cons in Hnd as [Hacells Hnd].
    set (o1 := {| head_ := {| value := value (head_ o);
                              next_node := first_ptr cells nullptr |};
                  size_ := size_ o |}).
    set (s1 := with_objs (<[this := o1]> (objs s)) s).
    set (s2 := with_heap (delete a (heap s1)) s1).
    destruct (IH fuel s2 this) as (s' & o2 & o' & E & Ho2 & Hobjs & Hsz & Hnext & Hlim
                                    & Hgone & Hkept & Hsize); [|lia|].
    { exists o1. simpl. rewrite lookup_insert_eq. split; [done|]. split; [done|].
      split; [|done]. eapply is_seg_frame; [|exact Hseg]. intros b Hb. simpl.
      apply lookup_delete_ne. by intros ->. }
    simpl in Ho2. rewrite lookup_insert_eq in Ho2. injection Ho2 as <-.
    exists s', o, o'. split; [|split; [done|split; [|split; [done|split; [done|split;
      [done|split; [|split]]]]]]].
    + simpl.
      rewrite (bind_Ok _ _ _ _ _ (get_next_eq _ _ _ (node_at_head _ _ _ Ho))), Hn.
      rewrite bool_decide_eq_true_2 by done.
      rewrite (bind_Ok _ _ _ _ _ (get_next_eq s (heap_node a) _ Ha)). simpl.
      rewrite (bind_Ok _ _ _ _ _ (set_next_head _ _ _ _ Ho)).
      by rewrite (bind_Ok _ _ s1 tt s2) by (by apply (operator_delete_heap s1 a _ Ha)).
    + rewrite Hobjs. simpl. by rewrite insert_insert_eq.
    + intros b [->|Hb]%elem_of_cons; [|by apply Hgone].
      rewrite Hkept by done. simpl. apply lookup_delete_eq.
    + intros b Hb. rewrite Hkept.
      * simpl. apply lookup_delete_ne. intros ->. apply Hb, list_elem_of_here.
      * intros Hin. apply Hb. by apply list_elem_of_further.
    + simpl. simpl in Hsize. rewrite map_size_delete, Ha in Hsize. simpl in Hsize.
      pose proof (map_size_ne_0_lookup_2 (heap s) a (mk_is_Some _ _ Ha)). lia.
Qed.

(** X1.  [Clear()] on a container with cells [cells], given fuel for them,
    returns; the container is then empty with size 0, each of its cells was
    freed, every other cell and object is as before, and the heap is smaller
    by exactly [length cells] nodes. *)
Theorem Clear_frees_every_cell fuel s this cells :
  wf_list s this cells →
  length cells < fuel →
  ∃ s', Clear fuel this s = Ok tt s'
        ∧ wf_list s' this []
        ∧ elements s' this = Some []
        ∧ size_of s' this = Some 0%Z
        ∧ (∀ a, a ∈ cells.*1 → heap s' !! a = None)
        ∧ (∀ a, a ∉ cells.*1 → heap s' !! a = heap s !! a)
        ∧ size (heap s') + length cells = size (heap s)
        ∧ (∀ c, c ≠ this → objs s' !! c = objs s !! c).
Proof.
  intros Hwf Hfuel.
  destruct (Clear_loop_spec cells fuel s this (wf_linked _ _ _ Hwf) Hfuel)
    as (s1 & o & o1 & E & Ho & Hobjs & Hsz & Hnext & Hlim & Hgone & Hkept & Hsize).
  assert (objs s1 !! this = Some o1) as Ho1 by (by rewrite Hobjs, lookup_insert_eq).
  set (s' := with_objs (<[this := {| head_ := head_ o1; size_ := 0 |}]> (objs s1)) s1).
  assert (wf_list s' this []) as Hwf'.
  { split; simpl; try done.
    - eexists. rewrite lookup_insert_eq. done.
    - apply NoDup_nil_2.
    - pose proof (wf_heap _ _ _ Hwf). lia. }
  exists s'. split; [|split; [done|split; [exact (wf_elements _ _ _ Hwf')|split;
    [exact (wf_size_of _ _ _ Hwf')|split; [done|split; [done|split; [done|]]]]]]].
  - apply noexcept_Ok. rewrite (bind_Ok _ _ _ _ _ E). by apply set_size_eq.
  - intros c Hc. simpl. rewrite lookup_insert_ne by done.
    by rewrite Hobjs, lookup_insert_ne.
Qed.

(** X2.  The destructor frees every cell of the container and gives up the
    object: afterwards no object lives at [this], the cells are gone, and
    everything else is as before. *)
Theorem destroy_frees_everything fuel s this cells :
  wf_list s this cells →
  length cells < fuel →
  ∃ s', destroy fuel this s = Ok tt s'
        ∧ objs s' = delete this (objs s)
        ∧ (∀ a, a ∈ cells.*1 → heap s' !! a = None)
        ∧ (∀ a, a ∉ cells.*1 → heap s' !! a = heap s !! a)
        ∧ size (heap s') + length cells = size (heap s)
        ∧ mem_limit s' = mem_limit s.
Proof.
  intros Hwf Hfuel.
  destruct (Clear_loop_spec cells fuel s this (wf_linked _ _ _ Hwf) Hfuel)
    as (s1 & o & o1 & E & Ho & Hobjs & Hsz & Hnext & Hlim & Hgone & Hkept & Hsize).
  assert (objs s1 !! this = Some o1) as Ho1 by (by rewrite Hobjs, lookup_insert_eq).
  eexists. split.
  - unfold destroy. erewrite bind_Ok; [reflexivity|].
    apply noexcept_Ok. rewrite (bind_Ok _ _ _ _ _ E). by apply set_size_eq.
  - simpl. split; [|done]. by rewrite Hobjs, insert_insert_eq, delete_insert_eq.
Qed.

Lemma swap_effect s a b oa ob :
  objs s !! a = Some oa → objs s !! b = Some ob → a ≠ b →
  swap a b s
  = Ok tt (with_objs
             (<[b := {| head_ := {| value := value (head_ ob);
                                    next_node := next_node (head_ oa) |};
                        size_ := size_ oa |}]>
                (<[a := {| head_ := {| value := value (head_ oa);
                                       next_node := next_node (head_ ob) |};
                           size_ := size_ ob |}]> (objs s))) s).
Proof.
  intros Ha Hb Hne. apply noexcept_Ok.
  rewrite (bind_Ok _ _ _ _ _ (get_next_eq _ _ _ (node_at_head _ _ _ Ha))).
  rewrite (bind_Ok _ _ _ _ _ (get_next_eq _ _ _ (node_at_head _ _ _ Hb))).
  rewrite (bind_Ok _ _ _ _ _ (set_next_head _ _ _ _ Ha)).
  erewrite bind_Ok; [|apply set_next_head; simpl; by rewrite lookup_insert_ne].
  erewrite bind_Ok;
    [|apply get_size_eq; simpl; rewrite lookup_insert_ne by done; apply lookup_insert_eq].
  erewrite bind_Ok; [|apply get_size_eq; simpl; apply lookup_insert_eq].
  erewrite bind_Ok;
    [|apply set_size_eq; simpl; rewrite lookup_insert_ne by done; apply lookup_insert_eq].
  erewrite set_size_eq;
    [|simpl; rewrite lookup_insert_ne by done; apply lookup_insert_eq].
  simpl. f_equal. unfold with_objs. simpl. f_equal.
  apply map_eq. intros i.
  destruct (decide (i = b)) as [->|Hib]; [|destruct (decide (i = a)) as [->|Hia]];
    by repeat first [rewrite lookup_insert_eq|rewrite lookup_insert_ne by done].
Qed.

Lemma swap_self s a oa :
  objs s !! a = Some oa →
  swap a a s
  = Ok tt (with_objs (<[a := {| head_ := {| value := value (head_ oa);
                                            next_node := next_node (head_ oa) |};
                                size_ := size_ oa |}]> (objs s)) s).
Proof.
  intros Ha. apply noexcept_Ok.
  rewrite (bind_Ok _ _ _ _ _ (get_next_eq _ _ _ (node_at_head _ _ _ Ha))).
  rewrite (bind_Ok _ _ _ _ _ (get_next_eq _ _ _ (node_at_head _ _ _ Ha))).
  rewrite (bind_Ok _ _ _ _ _ (set_next_head _ _ _ _ Ha)).
  erewrite bind_Ok; [|apply set_next_head; simpl; apply lookup_insert_eq].
  erewrite bind_Ok; [|apply get_size_eq; simpl; apply lookup_insert_eq].
  erewrite bind_Ok; [|apply get_size_eq; simpl; apply lookup_insert_eq].
  erewrite bind_Ok; [|apply set_size_eq; simpl; apply lookup_insert_eq].
  erewrite set_size_eq; [|simpl; apply lookup_insert_eq].
  simpl. f_equal. unfold with_objs. simpl. f_equal. by rewrite !insert_insert_eq.
Qed.

Lemma wf_transfer s s' c cc :
  objs s' !! c = objs s !! c →
  (∀ a, a ∈ cc.*1 → heap s' !! a = heap s !! a) →
  (Z.of_nat (size (heap s')) ≤ max_nodes)%Z →
  wf_list s c cc → wf_list s' c cc.
Proof.
  intros Hobj Hheap Hb [(o & Ho & Hn & Hs) Hseg Hnd _]. split; try done.
  - exists o. by rewrite Hobj.
  - by eapply is_seg_frame.
Qed.

Lemma swap_distinct s a b ca cb :
  wf_list s a ca → wf_list s b cb → a ≠ b →
  ∃ s', swap a b s = Ok tt s'
        ∧ wf_list s' a cb
        ∧ wf_list s' b ca
        ∧ heap s' = heap s
        ∧ mem_limit s' = mem_limit s
        ∧ (∀ c, c ≠ a → c ≠ b → objs s' !! c = objs s !! c).
Proof.
  intros [(oa & Hoa & Hna & Hsa) Hsega Hnda Hbound] [(ob & Hob & Hnb & Hsb) Hsegb Hndb _] Hne.
  eexists. split; [by apply swap_effect|].
  split; [|split; [|split; [done|split; [done|]]]].
  - split; simpl; try done. eexists.
    rewrite lookup_insert_ne by done. rewrite lookup_insert_eq. done.
  - split; simpl; try done. eexists. rewrite lookup_insert_eq. done.
  - intros c Hca Hcb. simpl. by rewrite !lookup_insert_ne.
Qed.

(** X3.  [swap] (the member and the free function) exchanges the chains and
    the sizes of two containers: each ends up with the cells the other had,
    at the same addresses, so that cursors stay valid; no node is allocated,
    freed or written, and no other object changes.  The two containers may
    be the same one. *)
Theorem swap_exchanges s a b ca cb :
  wf_list s a ca → wf_list s b cb →
  ∃ s', swap a b s = Ok tt s'
        ∧ swap_free a b s = Ok tt s'
        ∧ wf_list s' a cb
        ∧ wf_list s' b ca
        ∧ heap s' = heap s
        ∧ mem_limit s' = mem_limit s
        ∧ (∀ c, c ≠ a → c ≠ b → objs s' !! c = objs s !! c).
Proof.
  intros Hwa Hwb.
  destruct (decide (a = b)) as [->|Hne].
  - pose proof Hwb as [(ob & Hob & Hnb & Hsb) Hsegb Hndb Hbound].
    pose proof (wf_unique _ _ _ _ Hwa Hwb) as ->.
    set (s' := with_objs (<[b := {| head_ := {| value := value (head_ ob);
                                                next_node := next_node (head_ ob) |};
                                    size_ := size_ ob |}]> (objs s)) s).
    assert (swap b b s = Ok tt s') as E by (by apply swap_self).
    assert (wf_list s' b cb) as Hwf'.
    { split; simpl; try done. eexists. rewrite lookup_insert_eq. done. }
    exists s'. split; [done|]. split; [unfold swap_free; by apply noexcept_Ok|].
    split; [done|]. split; [done|]. split; [done|]. split; [done|].
    intros c Hc _. simpl. by rewrite lookup_insert_ne.
  - destruct (swap_distinct s a b ca cb Hwa Hwb Hne) as (s' & E & H).
    exists s'. split; [done|]. split; [unfold swap_free; by apply noexcept_Ok|]. done.
Qed.

(** X4.  Copy assignment between two different containers whose cells are
    apart, with fuel for both and room for a copy of the source: the call
    returns; the destination then holds the source's values in order and
    its size; the source has the cells it had; the cells the destination had
    are freed, so that the heap holds [length cr] nodes more and
    [length ct] nodes less than before; the temporary is gone and no other
    object changed. *)
Theorem operator_assign_copies fuel s this rhs ct cr :
  wf_list s this ct → wf_list s rhs cr → this ≠ rhs →
  (∀ a, a ∈ ct.*1 → a ∉ cr.*1) →
  length ct < fuel → length cr < fuel →
  (Z.of_nat (size (heap s) + length cr) ≤ Z.min (mem_limit s) max_nodes)%Z →
  ∃ s', operator_assign dflt fuel this rhs s = Ok tt s'
        ∧ elements s' this = Some cr.*2
        ∧ size_of s' this = Some (Z.of_nat (length cr))
        ∧ cells_of s' rhs = Some cr
        ∧ size_of s' rhs = Some (Z.of_nat (length cr))
        ∧ (∀ a, a ∈ ct.*1 → heap s' !! a = None)
        ∧ size (heap s') + length ct = size (heap s) + length cr
        ∧ (∀ c, c ≠ this → objs s' !! c = objs s !! c).
Proof.
  intros Hwt Hwr Hne Hapart Hfuelt Hfuelr Hroom.
  set (temp := fresh (dom (objs s))).
  assert (objs s !! temp = None) as Htemp by apply not_elem_of_dom, is_fresh.
  assert (this ≠ temp) as Htt.
  { intros E. destruct Hwt as [(o & Ho & _) _ _ _]. rewrite E in Ho. congruence. }
  assert (rhs ≠ temp) as Hrt.
  { intros E. destruct Hwr as [(o & Ho & _) _ _ _]. rewrite E in Ho. congruence. }
  destruct (construct_copy_effect fuel s temp rhs cr Hwr Htemp Hfuelr Hroom)
    as (s1 & cd & E1 & Hv & Hwtemp1 & Hwr1 & Hmod1 & Hfresh & Hsize1).
  assert (length cd = length cr) as Hlen.
  { by rewrite <- (length_fmap snd cd), Hv, length_fmap. }
  assert (wf_list s1 this ct) as Hwt1.
  { eapply modifies_wf_other; [exact Hmod1|done| |apply Hwtemp1|done].
    intros a _ Hin. by apply elem_of_nil in Hin. }
  destruct (swap_distinct s1 this temp ct cd Hwt1 Hwtemp1 Htt)
    as (s2 & E2 & Hwt2 & Hwtemp2 & Hheap2 & Hlim2 & Hobjs2).
  assert (wf_list s2 rhs cr) as Hwr2.
  { apply (wf_transfer s1); [by apply Hobjs2|by rewrite Hheap2| |done].
    rewrite Hheap2. apply Hwr1. }
  destruct (Clear_loop_spec ct fuel s2 temp (wf_linked _ _ _ Hwtemp2) Hfuelt)
    as (s3 & o & o3 & E3 & Ho & Hobjs3 & Hsz3 & Hnext3 & Hlim3 & Hgone & Hkept & Hsize3).
  assert (objs s3 !! temp = Some o3) as Ho3 by (by rewrite Hobjs3, lookup_insert_eq).
  set (s4 := with_objs (<[temp := {| head_ := head_ o3; size_ := 0 |}]> (objs s3)) s3).
  set (s5 := with_objs (delete temp (objs s4)) s4).
  assert (∀ c, c ≠ temp → objs s5 !! c = objs s2 !! c) as Hobjs5.
  { intros c Hc. simpl. rewrite lookup_delete_ne by done.
    rewrite lookup_insert_ne by done. by rewrite Hobjs3, lookup_insert_ne. }
  assert (Z.of_nat (size (heap s5)) ≤ max_nodes)%Z as Hb5.
  { simpl. pose proof (wf_heap _ _ _ Hwt2). lia. }
  assert (∀ a, a ∈ cd.*1 → a ∉ ct.*1) as Hcdct.
  { intros a Ha Hin.
    destruct (is_seg_live _ _ _ _ (wf_chain _ _ _ Hwt) Hin) as [y Hy].
    rewrite (Hfresh a Ha) in Hy. done. }
  assert (wf_list s5 this cd) as Hwt5.
  { apply (wf_transfer s2); [by apply Hobjs5| |done|done].
    intros a Ha. simpl. apply Hkept. by apply Hcdct. }
  assert (wf_list s5 rhs cr) as Hwr5.
  { apply (wf_transfer s2); [by apply Hobjs5| |done|done].
    intros a Ha. simpl. apply Hkept. intros Hin. by apply (Hapart a). }
  exists s5. split; [|split; [|split; [|split; [|split; [|split; [|split]]]]]].
  - unfold operator_assign. rewrite bool_decide_eq_true_2 by done. unfold when.
    rewrite (bind_Ok _ _ s temp s) by done. fold temp.
    rewrite (bind_Ok _ _ _ _ _ E1), (bind_Ok _ _ _ _ _ E2).
    unfold destroy. erewrite (bind_Ok _ _ s2 tt s4); [done|].
    apply noexcept_Ok. rewrite (bind_Ok _ _ _ _ _ E3). by apply set_size_eq.
  - by rewrite (wf_elements _ _ _ Hwt5), Hv.
  - by rewrite (wf_size_of _ _ _ Hwt5), Hlen.
  - by apply wf_cells_of.
  - by apply wf_size_of.
  - done.
  - simpl. rewrite <- Hheap2 in Hsize1. lia.
  - intros c Hc. destruct (decide (c = temp)) as [->|Hct].
    + simpl. by rewrite lookup_delete_eq.
    + rewrite Hobjs5 by done. rewrite Hobjs2 by done.
      destruct Hmod1 as (_ & Hobjs1 & _). by apply Hobjs1.
Qed.

(** ** The constructor from an initializer list *)

(** X5.  With room for every value, the constructor from an initializer
    list returns with a container that holds the values in the order of the
    list and has their number as size ([GetSize()] returns it); the other
    objects and the nodes that were live before are untouched. *)
Theorem construct_from_values_builds s this values :
  (Z.of_nat (size (heap s) + length values) ≤ Z.min (mem_limit s) max_nodes)%Z →
  ∃ s', construct_from_values dflt this values s = Ok tt s'
        ∧ elements s' this = Some values
        ∧ size_of s' this = Some (Z.of_nat (length values))
        ∧ GetSize this s' = Ok (Z.of_nat (length values)) s'
        ∧ (∀ c, c ≠ this → objs s' !! c = objs s !! c)
        ∧ (∀ a, is_Some (heap s !! a) → heap s' !! a = heap s !! a).
Proof.
  intros Hroom.
  destruct (construct_from_values_spec s this values Hroom)
    as (s' & cells & E & Hv & Hwf & (_ & Hobjs & Hheap) & _).
  assert (length cells = length values) as Hlen by (by rewrite <- Hv, length_fmap).
  exists s'. split; [done|]. split; [by rewrite (wf_elements _ _ _ Hwf), Hv|].
  split; [by rewrite (wf_size_of _ _ _ Hwf), Hlen|].
  split; [by rewrite (wf_GetSize _ _ _ Hwf), Hlen|]. split; [done|].
  intros a Ha. apply Hheap; [|done]. intros Hin. by apply elem_of_nil in Hin.
Qed.

Lemma can_allocate_room_iff st : can_allocate st = true ↔ room st ≠ 0.
Proof.
  unfold can_allocate, room. rewrite bool_decide_eq_true. lia.
Qed.

Lemma Assign_values_throws values : ∀ st this cd last_new,
  linked st this cd →
  (cd ≠ [] → last_new = last_ptr this cd) →
  room st < length values →
  ∃ st' cd', Assign_values this values last_new st = Throw st'
             ∧ extends this cd cd' st st'
             ∧ cd'.*2 = take (room st) values.
Proof.
  induction values as [|x values IH]; intros st this cd last_new Hl Hlast Hroom;
    [simpl in Hroom; lia|].
  pose proof (Assign_step_spec st this cd x last_new Hl Hlast) as H.
  destruct (can_allocate st) eqn:Hcan.
  - destruct H as (n & st1 & E1 & Hext1).
    apply can_allocate_room_iff in Hcan.
    assert (room st = S (room st1)) as Hr.
    { unfold room in *. rewrite (ext_size _ _ _ _ _ Hext1), (ext_limit _ _ _ _ _ Hext1).
      simpl. lia. }
    destruct (IH st1 this (cd ++ [(n, x)]) (heap_node n)) as (st2 & cd2 & E2 & Hext2 & Hv);
      [apply Hext1|apply last_ptr_snoc_ne|simpl in Hroom; lia|].
    exists st2, ((n, x) :: cd2). split; [|split].
    + simpl. by rewrite (bind_Ok _ _ _ _ _ E1).
    + by apply (extends_trans this cd [(n, x)] cd2 st st1 st2).
    + rewrite Hr, fmap_cons, Hv. done.
  - assert (room st = 0) as Hr.
    { destruct (room st) eqn:E; [done|].
      assert (can_allocate st = true) by (apply can_allocate_room_iff; lia). congruence. }
    exists st, []. split; [|split].
    + simpl. by rewrite (bind_Throw _ _ _ _ H).
    + by apply extends_nil.
    + by rewrite Hr.
Qed.

(** X6.  When the store has room for fewer nodes than the initializer list
    has values, the constructor throws.  No object is left at [this] and
    every node and object that existed is as it was, but the nodes built
    before the failing allocation stay allocated: the heap has grown by
    [room s] nodes, chained and holding the first [room s] values, which no
    object links to. *)
Theorem construct_from_values_throw_leaks s this values :
  objs s !! this = None →
  room s < length values →
  ∃ s' leaked,
    construct_from_values dflt this values s = Throw s'
    ∧ objs s' = objs s
    ∧ (∀ a, is_Some (heap s !! a) → heap s' !! a = heap s !! a)
    ∧ size (heap s') = size (heap s) + room s
    ∧ leaked.*2 = take (room s) values
    ∧ is_seg (heap s') leaked nullptr
    ∧ (∀ a, a ∈ leaked.*1 → heap s !! a = None).
Proof.
  intros Hnew Hroom.
  set (s1 := with_objs
               (<[this := {| head_ := {| value := dflt; next_node := nullptr |};
                             size_ := Z.of_nat (length values) |}]> (objs s)) s).
  destruct (Assign_values_throws values s1 this [] nullptr) as (st & cd & E & Hext & Hv);
    [|done|done|].
  { eexists. simpl. rewrite lookup_insert_eq. repeat split; try done. apply NoDup_nil_2. }
  destruct Hext as [(o & o' & Ho & Hobjs & _) (o2 & _ & _ & Hseg & _) Hfresh Hframe Hsize _].
  exists (with_objs (delete this (objs st)) st), cd. split; [|split; [|split; [|split;
    [|split; [done|split; [done|done]]]]]].
  - unfold construct_from_values, constructing.
    rewrite (bind_Ok _ _ s tt s1) by done. by rewrite E.
  - simpl. rewrite Hobjs. simpl. rewrite insert_insert_eq. by apply delete_insert_id.
  - intros a Ha. simpl. apply Hframe; [|done]. intros Hin. by apply elem_of_nil in Hin.
  - simpl. rewrite Hsize. simpl. f_equal.
    rewrite <- (length_fmap snd cd), Hv, length_take. unfold room in *. simpl in *. lia.
Qed.

(** ** Traversal *)

Lemma increment_n_chain s : ∀ k cells,
  is_seg (heap s) cells nullptr →
  increment_n (V:=ReadOnly) k (Iter (first_ptr cells nullptr)) s
  = Ok (Iter (first_ptr (drop k cells) nullptr)) s.
Proof.
  induction k as [|k IH]; intros cells Hseg; [by rewrite drop_0|].
  destruct cells as [|[a v] rest]; simpl.
  - rewrite (bind_Ok _ _ _ _ _ (pre_increment_end (V:=ReadOnly) (Iter nullptr) s eq_refl)).
    pose proof (IH [] I) as E. by rewrite drop_nil in E.
  - destruct Hseg as [Ha Hrest].
    rewrite (bind_Ok _ _ _ _ _
               (pre_increment_eq (V:=ReadOnly) (Iter (heap_node a)) s _ Ha)).
    by apply IH.
Qed.

(** X7.  Traversal order.  From [begin()], [k] increments bring the cursor
    to the cell of the element of index [k], which [operator*] then yields;
    when the container has no such element, that is from [length cells]
    increments on, the cursor equals [end()] and stays there. *)
Theorem traversal_visits_elements_in_order s this cells k :
  wf_list s this cells →
  ∃ it e : ConstIterator,
    bind (begin this) (increment_n k) s = Ok it s
    ∧ end_ this s = Ok e s
    ∧ match cells.*2 !! k with
      | Some v => deref it s = Ok v s ∧ iter_eq it e = false
      | None => iter_eq it e = true
      end.
Proof.
  intros [(o & Ho & Hn & _) Hseg _ _].
  exists (Iter (first_ptr (drop k cells) nullptr)), (Iter nullptr).
  split; [|split; [done|]].
  - rewrite (bind_Ok _ _ _ _ _ (begin_eq s this o Ho)), Hn. by apply increment_n_chain.
  - rewrite list_lookup_fmap. destruct (cells !! k) as [[a v]|] eqn:Ek; simpl.
    + rewrite (drop_S _ _ _ Ek). simpl.
      rewrite <- (take_drop k cells), (drop_S _ _ _ Ek) in Hseg.
      apply is_seg_app in Hseg as [_ [Ha _]]. split; [|done].
      by apply (deref_eq (V:=ReadOnly) (Iter (heap_node a)) s _ Ha).
    + apply lookup_ge_None in Ek. by rewrite drop_ge.
Qed.

(** X8.  On any container [IsEmpty()] returns true exactly when it has no
    cell, and that is exactly when [begin()] equals [end()]. *)
Theorem IsEmpty_iff_begin_is_end s this cells :
  wf_list s this cells →
  ∃ (b e : Iterator),
    begin this s = Ok b s
    ∧ end_ this s = Ok e s
    ∧ IsEmpty this s = Ok (iter_eq b e) s
    ∧ (iter_eq b e = true ↔ cells = []).
Proof.
  intros Hwf. pose proof Hwf as [(o & Ho & Hn & Hs) _ _ _].
  exists (Iter (first_ptr cells nullptr)), (Iter nullptr).
  split; [by rewrite (begin_eq s this o Ho), Hn|]. split; [done|].
  rewrite (IsEmpty_eq _ _ _ Ho), Hs. unfold iter_eq. simpl.
  destruct cells as [|[a v] rest]; simpl; by split.
Qed.

(** X9.  [PopFront()] on an empty container never returns: the [assert]
    ends the program, and in a build without it the call reads through the
    null head link. *)
Theorem PopFront_on_empty s this :
  wf_list s this [] →
  PopFront NDEBUG this s = if NDEBUG then Undefined else Aborted.
Proof.
  intros [(o & Ho & Hn & Hs) _ _ _]. simpl in Hn, Hs.
  unfold PopFront, noexcept. rewrite (bind_Ok _ _ _ _ _ (IsEmpty_eq _ _ _ Ho)).
  rewrite bool_decide_eq_true_2 by done. unfold assert_. simpl.
  destruct NDEBUG; [|done].
  rewrite (bind_Ok _ _ s tt s) by done.
  rewrite (bind_Ok _ _ _ _ _ (get_next_eq _ _ _ (node_at_head _ _ _ Ho))), Hn.
  done.
Qed.

(** ** Insertion and removal at any position *)

Lemma wf_cell s this pre a v post :
  wf_list s this (pre ++ (a, v) :: post) →
  heap s !! a = Some {| value := v; next_node := first_ptr post nullptr |}.
Proof. intros [_ Hseg _ _]. by apply is_seg_app in Hseg as [_ [Ha _]]. Qed.

(** X10.  [InsertAfter(pos, v)] with [pos] at the sentinel or at a real
    cell, when the allocation succeeds: the new element comes right after
    the position, every cell that was there keeps its address (cursors to
    them stay valid), the size grows by one, and the returned cursor is at
    the new cell: [operator*] yields [v] and [++] leads to what followed the
    position. *)
Theorem InsertAfter_splices s this pre post (pos : ConstIterator) v :
  wf_list s this (pre ++ post) →
  node_ pos = last_ptr this pre →
  can_allocate s = true →
  ∃ a it s',
    InsertAfter this pos v s = Ok it s'
    ∧ heap s !! a = None
    ∧ node_ it = heap_node a
    ∧ cells_of s' this = Some (pre ++ (a, v) :: post)
    ∧ elements s' this = Some (pre.*2 ++ v :: post.*2)
    ∧ size_of s' this = Some (Z.of_nat (S (length (pre ++ post))))
    ∧ deref it s' = Ok v s'
    ∧ pre_increment it s' = Ok (Iter (first_ptr post nullptr)) s'
    ∧ size (heap s') = S (size (heap s)).
Proof.
  intros Hwf Hpos Hcan.
  pose proof (InsertAfter_effect s this pre post pos v Hwf Hpos) as H. rewrite Hcan in H.
  destruct H as (a & s' & Ha & E & Hwf' & Hmod & Hsize).
  pose proof (wf_cell _ _ _ _ _ _ Hwf') as Hcell.
  exists a, (Iter (heap_node a)), s'. split; [done|]. split; [done|]. split; [done|].
  split; [by apply wf_cells_of|].
  split; [by rewrite (wf_elements _ _ _ Hwf'), fmap_app|].
  split.
  { rewrite (wf_size_of _ _ _ Hwf'), !length_app. simpl. do 2 f_equal. lia. }
  split; [by apply (deref_eq (V:=Mutable) (Iter (heap_node a)) s' _ Hcell)|].
  split; [by apply (pre_increment_eq (V:=Mutable) (Iter (heap_node a)) s' _ Hcell)|].
  done.
Qed.

(** X11.  [EraseAfter(pos)] with [pos] at the sentinel or at a real cell
    that has a successor: the successor's element leaves the sequence, its
    node is freed (a cursor to it dangles), the other cells keep their
    addresses, the size shrinks by one, and the returned cursor is at what
    followed the erased cell, [end()] when nothing did. *)
Theorem EraseAfter_removes s this pre a v post (pos : ConstIterator) :
  wf_list s this (pre ++ (a, v) :: post) →
  node_ pos = last_ptr this pre →
  ∃ it s',
    EraseAfter this pos s = Ok it s'
    ∧ node_ it = first_ptr post nullptr
    ∧ cells_of s' this = Some (pre ++ post)
    ∧ elements s' this = Some (pre.*2 ++ post.*2)
    ∧ size_of s' this = Some (Z.of_nat (length (pre ++ post)))
    ∧ heap s' !! a = None
    ∧ deref (V:=ReadOnly) (Iter (heap_node a)) s' = Undefined
    ∧ S (size (heap s')) = size (heap s).
Proof.
  intros Hwf Hpos.
  destruct (EraseAfter_effect s this pre a v post pos Hwf Hpos)
    as (s' & E & Hwf' & _ & Hgone & Hsize).
  exists (Iter (first_ptr post nullptr)), s'. split; [done|]. split; [done|].
  split; [by apply wf_cells_of|].
  split; [by rewrite (wf_elements _ _ _ Hwf'), fmap_app|].
  split; [by apply wf_size_of|]. split; [done|]. split; [|done].
  unfold deref, noexcept, get_value, bind, read. simpl. by rewrite Hgone.
Qed.

(** X12.  Strong exception guarantee of the insertions: when no node can be
    allocated, [PushFront] and [InsertAfter] throw and the store is exactly
    the one they were called in. *)
Theorem insertion_throw_changes_nothing s this cells (pos : ConstIterator) v :
  wf_list s this cells →
  belongs this cells (node_ pos) →
  can_allocate s = false →
  PushFront this v s = Throw s ∧ InsertAfter this pos v s = Throw s.
Proof.
  intros Hwf (pre & post & -> & Hpos)%belongs_split Hcan.
  pose proof (PushFront_spec s this _ v Hwf) as HP.
  pose proof (InsertAfter_spec s this pre post pos v Hwf Hpos) as HI.
  rewrite Hcan in HP, HI. done.
Qed.

(** X17.  [EraseAfter(pos)] with [pos] at the last real cell of a
    container never returns: the container is not empty, so the guard lets
    the removal run, and the removal reads through the null link of that
    cell. *)
Theorem EraseAfter_at_last_real_cell_is_undefined s this pre a v (pos : ConstIterator) :
  wf_list s this (pre ++ [(a, v)]) →
  node_ pos = heap_node a →
  EraseAfter this pos s = Undefined.
Proof.
  intros Hwf Hpos. pose proof (wf_cell _ _ _ _ _ _ Hwf) as Ha.
  destruct Hwf as [(o & Ho & _ & Hs) _ _ _]. rewrite length_app in Hs. simpl in Hs.
  unfold EraseAfter, noexcept. rewrite Hpos.
  rewrite (bind_Ok _ _ _ _ _ (IsEmpty_eq _ _ _ Ho)).
  rewrite bool_decide_eq_false_2 by (rewrite Hs; lia). simpl.
  unfold bind at 1. unfold bind at 1.
  by rewrite (get_next_eq s (heap_node a) _ Ha).
Qed.

Lemma PopFront_as_EraseAfter s this a v post (it : Iterator) s' :
  wf_list s this ((a, v) :: post) →
  EraseAfter this (Iter (head_of this)) s = Ok it s' →
  PopFront NDEBUG this s = Ok tt s'.
Proof.
  intros [(o & Ho & Hn & Hs) [Ha _] _ _]. simpl in Hn, Hs.
  unfold EraseAfter, PopFront, noexcept, bind, when, assert_.
  rewrite (IsEmpty_eq _ _ _ Ho).
  rewrite bool_decide_eq_false_2 by (rewrite Hs; lia). simpl.
  replace (if NDEBUG then ret () else ret ()) with (ret (T:=T) ())
    by (by destruct NDEBUG).
  unfold ret at 2.
  destruct (get_next (head_of this) s) as [tmp s1| | | |]; try done.
  destruct (get_next tmp s1) as [n s2| | | |]; try done.
  destruct (set_next (head_of this) n s2) as [[] s3| | | |]; try done.
  destruct (operator_delete tmp s3) as [[] s4| | | |]; try done.
  destruct (decr_size this s4) as [[] s5| | | |]; try done.
  destruct (get_next (head_of this) s5) as [r s6| | | |] eqn:E6; try done.
  apply get_next_pure in E6 as ->. unfold ret. by intros [= _ ->].
Qed.

(** X18.  [PopFront()] on a container that has a first cell returns and
    does to the store what [EraseAfter(before_begin())] does: the first
    element leaves the sequence, its node is freed, the other cells keep
    their addresses and the size shrinks by one. *)
Theorem PopFront_removes_first s this a v post :
  wf_list s this ((a, v) :: post) →
  ∃ s',
    PopFront NDEBUG this s = Ok tt s'
    ∧ bind (before_begin this) (EraseAfter this) s = Ok (Iter (first_ptr post nullptr)) s'
    ∧ cells_of s' this = Some post
    ∧ elements s' this = Some post.*2
    ∧ size_of s' this = Some (Z.of_nat (length post))
    ∧ heap s' !! a = None
    ∧ S (size (heap s')) = size (heap s).
Proof.
  intros Hwf.
  destruct (EraseAfter_effect s this [] a v post (Iter (head_of this)) Hwf eq_refl)
    as (s' & E & Hwf' & _ & Hgone & Hsize).
  exists s'. split; [by eapply PopFront_as_EraseAfter|]. split; [done|].
  split; [by apply (wf_cells_of _ _ _ Hwf')|].
  split; [by apply (wf_elements _ _ _ Hwf')|].
  split; [by apply (wf_size_of _ _ _ Hwf')|]. done.
Qed.

(** ** Copies of cursors *)

(** X13.  Copying a mutable cursor that is at a live node (and passing one
    for a [ConstIterator] parameter, which runs the same constructor)
    allocates a node that nothing links to: the copy is at the same node,
    every container is as before, and the heap holds one node more.  A
    read-only cursor is copied without touching the store. *)
Theorem mutable_cursor_copy_leaks (it : Iterator) (cit : ConstIterator) s nd :
  node_at s (node_ it) = Some nd →
  can_allocate s = true →
  ∃ s',
    BasicIterator_copy it s = Ok it s'
    ∧ as_ConstIterator it s = Ok (Iter (node_ it)) s'
    ∧ size (heap s') = S (size (heap s))
    ∧ objs s' = objs s
    ∧ (∀ a, is_Some (heap s !! a) → heap s' !! a = heap s !! a)
    ∧ (∀ c cells, wf_list s c cells → wf_list s' c cells)
    ∧ BasicIterator_copy cit s = Ok cit s.
Proof.
  intros Hnd Hcan.
  exists (with_heap (<[fresh (dom (heap s)) :=
                         {| value := value nd; next_node := next_node nd |}]>
                       (heap s)) s).
  split; [|split; [|split; [|split; [done|split; [|split; [|done]]]]]].
  - simpl. rewrite (BasicIterator_from_mutable_live it s nd Hnd Hcan). by destruct it.
  - simpl. by apply BasicIterator_from_mutable_live.
  - simpl. apply map_size_insert_None, fresh_heap_None.
  - intros a [x Hx]. simpl. apply lookup_insert_ne. intros <-.
    pose proof (fresh_heap_None s). congruence.
  - intros c cells Hwf. by apply wf_garbage.
Qed.

(** ** The ordering and the equality as relations *)

Lemma spec_less_asymmetric (la lb : list T) :
  (∀ x y, T_lt x y = true → T_lt y x = false) →
  spec_less T_lt la lb → spec_less T_lt lb la → False.
Proof.
  intros Hasym [Hlt|[Hlen (i & x & y & Hx & Hy & Hxy & Hbefore)]]
               [Hlt'|[Hlen' (j & y' & x' & Hy' & Hx' & Hyx & Hbefore')]]; try lia.
  destruct (lt_eq_lt_dec i j) as [[Hij|<-]|Hji].
  - destruct (Hbefore' i y x Hij Hy Hx) as [_ Hfalse]. congruence.
  - assert (x' = x) as -> by congruence. assert (y' = y) as -> by congruence.
    rewrite (Hasym x y Hxy) in Hyx. done.
  - destruct (Hbefore j x' y' Hji Hx' Hy') as [_ Hfalse]. congruence.
Qed.

(** X14.  When the elements' [<] is asymmetric, so is the containers': of
    [a < b] and [b < a] at most one returns true; in particular [a < a]
    returns false. *)
Theorem operator_lt_asymmetric s a b ca cb fuel :
  (∀ x y, T_lt x y = true → T_lt y x = false) →
  wf_list s a ca → wf_list s b cb →
  length ca < fuel → length cb < fuel →
  ∃ r1 r2,
    operator_lt T_lt fuel a b s = Ok r1 s
    ∧ operator_lt T_lt fuel b a s = Ok r2 s
    ∧ (r1 = true → r2 = false)
    ∧ (a = b → r1 = false).
Proof.
  intros Hasym Hwa Hwb Hfa Hfb.
  destruct (operator_lt_spec s a b ca cb fuel Hwa Hwb Hfa) as (r1 & E1 & Hr1).
  destruct (operator_lt_spec s b a cb ca fuel Hwb Hwa Hfb) as (r2 & E2 & Hr2).
  exists r1, r2. split; [done|]. split; [done|].
  assert (r1 = true → r2 = false) as H.
  { intros H1. destruct r2; [|done]. exfalso.
    apply (spec_less_asymmetric ca.*2 cb.*2 Hasym); [by apply Hr1|by apply Hr2]. }
  split; [done|]. intros ->. rewrite E1 in E2. injection E2 as <-.
  destruct r1; [by apply H|done].
Qed.

(** X15.  When the elements' [<] is asymmetric, [<=] on containers is
    total: of [a <= b] and [b <= a] at least one returns true; [a > b]
    returns the negation of [a <= b], and [a >= b] what [b <= a] returns. *)
Theorem operator_le_total s a b ca cb fuel :
  (∀ x y, T_lt x y = true → T_lt y x = false) →
  wf_list s a ca → wf_list s b cb →
  length ca < fuel → length cb < fuel →
  ∃ r1 r2,
    operator_le T_lt fuel a b s = Ok r1 s
    ∧ operator_le T_lt fuel b a s = Ok r2 s
    ∧ (r1 = true ∨ r2 = true)
    ∧ operator_gt T_lt fuel a b s = Ok (negb r1) s
    ∧ operator_ge T_lt fuel a b s = Ok r2 s.
Proof.
  intros Hasym Hwa Hwb Hfa Hfb.
  destruct (operator_lt_spec s a b ca cb fuel Hwa Hwb Hfa) as (lab & E1 & Hr1).
  destruct (operator_lt_spec s b a cb ca fuel Hwb Hwa Hfb) as (lba & E2 & Hr2).
  exists (negb lba), (negb lab). unfold operator_le, operator_gt, operator_ge.
  rewrite (bind_Ok _ _ _ _ _ E1), (bind_Ok _ _ _ _ _ E2), E2.
  rewrite negb_involutive.
  repeat (split; [done|]). split; [|done].
  destruct lab, lba; simpl; auto. exfalso.
  apply (spec_less_asymmetric ca.*2 cb.*2 Hasym); [by apply Hr1|by apply Hr2].
Qed.

(** X16.  When the elements' [==] is symmetric, [a == b] and [b == a]
    return the same, and [a != b] returns the opposite. *)
Theorem operator_eq_symmetric s a b ca cb fuel :
  (∀ x y, T_eq x y = T_eq y x) →
  wf_list s a ca → wf_list s b cb →
  length ca < fuel → length cb < fuel →
  ∃ r,
    operator_eq T_eq fuel a b s = Ok r s
    ∧ operator_eq T_eq fuel b a s = Ok r s
    ∧ operator_ne T_eq fuel a b s = Ok (negb r) s.
Proof.
  intros Hsym Hwa Hwb Hfa Hfb.
  destruct (operator_eq_spec s a b ca cb fuel Hwa Hwb Hfa) as (r1 & E1 & Hr1).
  destruct (operator_eq_spec s b a cb ca fuel Hwb Hwa Hfb) as (r2 & E2 & Hr2).
  assert (r1 = r2) as <-.
  { assert (spec_equal T_eq ca.*2 cb.*2 ↔ spec_equal T_eq cb.*2 ca.*2) as Hiff.
    { unfold spec_equal. split; intros [Hlen Hall]; (split; [done|]);
        intros i x y Hx Hy; rewrite Hsym; by apply (Hall i). }
    destruct r1, r2; try done.
    - symmetry. apply Hr2, Hiff, Hr1. done.
    - apply Hr1, Hiff, Hr2. done. }
  exists r1. split; [done|]. split; [done|].
  unfold operator_ne. by rewrite (bind_Ok _ _ _ _ _ E1).
Qed.

End Verification.

(** * The theorems at work on containers of integers *)

(** The container {7, 8}, built from an initializer list. *)
Lemma one_list_78_wf : wf_list (one_list 10 [7; 8]%Z) 1 [(1%positive, 7%Z); (2%positive, 8%Z)].
Proof. concrete_wf. Qed.

(** {7, 8}; then [EraseAfter(begin())] leaves {7}; then [PushFront(5)]
    leaves {5, 7}: the size that [GetSize()] returns is the number of cells
    reachable. *)
Lemma size_invariant_witness :
  let s1 := one_list 10 [7; 8]%Z in
  let s2 := after (EraseAfter 1 (Iter (heap_node 1))) s1 in
  let s3 := after (PushFront 1 5%Z) s2 in
  reachable 0%Z false 1 s3
  ∧ ∃ n, reachable_cells s3 1 = Some n ∧ GetSize 1 s3 = Ok (Z.of_nat n) s3.
Proof.
  intros s1 s2 s3.
  assert (reachable 0%Z false 1 s3) as H.
  { exists s1. split.
    - apply (constructed_from_values 0%Z 1 [7; 8]%Z (empty_store 10));
        [vm_compute; discriminate|vm_compute; reflexivity].
    - apply (rtc_l _ _ s2).
      + apply (step_return false 1 (DoEraseAfter (Iter (heap_node 1)))).
        * exists [(1%positive, 7%Z); (2%positive, 8%Z)].
          split; [vm_compute; reflexivity|]. split.
          -- right. exists 1%positive. split; [reflexivity|]. apply list_elem_of_here.
          -- exists {| value := 7%Z; next_node := heap_node 2 |}, 2%positive.
             split; vm_compute; reflexivity.
        * vm_compute; reflexivity.
      + apply (rtc_l _ _ s3); [|apply rtc_refl].
        apply (step_return false 1 (DoPushFront 5%Z)); [exact I|vm_compute; reflexivity]. }
  split; [exact H|]. exact (size_invariant 0%Z false 1 s3 H).
Defined.

(** {1,2} < {1,2,3}, {5} < {1,2} and {1,2} < {1,3}: what [operator<]
    returns, through the theorem. *)
Lemma operator_lt_correct_witness :
  (let s := two_lists 100 [1; 2]%Z [1; 2; 3]%Z in
   wf_list s 1 [(1%positive, 1%Z); (2%positive, 2%Z)]
   ∧ wf_list s 2 [(3%positive, 1%Z); (4%positive, 2%Z); (5%positive, 3%Z)]
   ∧ operator_lt Z.ltb 3 1 2 s = Ok true s)
  ∧ (let s := two_lists 100 [5]%Z [1; 2]%Z in
     wf_list s 1 [(1%positive, 5%Z)]
     ∧ wf_list s 2 [(2%positive, 1%Z); (3%positive, 2%Z)]
     ∧ operator_lt Z.ltb 2 1 2 s = Ok true s)
  ∧ (let s := two_lists 100 [1; 2]%Z [1; 3]%Z in
     wf_list s 1 [(1%positive, 1%Z); (2%positive, 2%Z)]
     ∧ wf_list s 2 [(3%positive, 1%Z); (4%positive, 3%Z)]
     ∧ operator_lt Z.ltb 3 1 2 s = Ok true s).
Proof.
  split; [|split]; intros s.
  - assert (wf_list s 1 [(1%positive, 1%Z); (2%positive, 2%Z)]) as H1 by concrete_wf.
    assert (wf_list s 2 [(3%positive, 1%Z); (4%positive, 2%Z); (5%positive, 3%Z)])
      as H2 by concrete_wf.
    split; [exact H1|]. split; [exact H2|].
    destruct (operator_lt_correct Z.ltb s 1 2 _ _ 3 H1 H2) as (r & E & _ & _ & Hr);
      [simpl; lia|].
    rewrite E. f_equal. apply Hr. left. simpl. lia.
  - assert (wf_list s 1 [(1%positive, 5%Z)]) as H1 by concrete_wf.
    assert (wf_list s 2 [(2%positive, 1%Z); (3%positive, 2%Z)]) as H2 by concrete_wf.
    split; [exact H1|]. split; [exact H2|].
    destruct (operator_lt_correct Z.ltb s 1 2 _ _ 2 H1 H2) as (r & E & _ & _ & Hr);
      [simpl; lia|].
    rewrite E. f_equal. apply Hr. left. simpl. lia.
  - assert (wf_list s 1 [(1%positive, 1%Z); (2%positive, 2%Z)]) as H1 by concrete_wf.
    assert (wf_list s 2 [(3%positive, 1%Z); (4%positive, 3%Z)]) as H2 by concrete_wf.
    split; [exact H1|]. split; [exact H2|].
    destruct (operator_lt_correct Z.ltb s 1 2 _ _ 3 H1 H2) as (r & E & _ & _ & Hr);
      [simpl; lia|].
    rewrite E. f_equal. apply Hr. right. split; [reflexivity|].
    exists 1, 2%Z, 3%Z. do 3 (split; [reflexivity|]).
    intros [|j] u v Hj Hu Hv; [|lia]. injection Hu as <-. injection Hv as <-.
    split; reflexivity.
Defined.

(** The same three comparisons, and one that fails, by running the code. *)
Example operator_lt_examples :
  returned (operator_lt Z.ltb 5 1 2 (two_lists 100 [1; 2]%Z [1; 2; 3]%Z)) = Some true
  ∧ returned (operator_lt Z.ltb 5 1 2 (two_lists 100 [5]%Z [1; 2]%Z)) = Some true
  ∧ returned (operator_lt Z.ltb 5 1 2 (two_lists 100 [1; 2]%Z [1; 3]%Z)) = Some true
  ∧ returned (operator_lt Z.ltb 5 1 2 (two_lists 100 [1; 3]%Z [1; 2]%Z)) = Some false
  ∧ returned (operator_lt Z.ltb 5 1 2 (two_lists 100 [1; 2; 3]%Z [9]%Z)) = Some false.
Proof. repeat split; vm_compute; reflexivity. Qed.

(** A copy of {7, 8}. *)
Lemma copy_round_trip_witness :
  let s := one_list 10 [7; 8]%Z in
  let cells := [(1%positive, 7%Z); (2%positive, 8%Z)] in
  wf_list s 1 cells
  ∧ objs s !! 2%positive = None
  ∧ length cells < 3
  ∧ (Z.of_nat (size (heap s) + length cells) ≤ Z.min (mem_limit s) max_nodes)%Z
  ∧ ∃ s' cd,
      construct_copy 0%Z 3 2 1 s = Ok tt s'
      ∧ cells_of s' 2 = Some cd
      ∧ (∀ a, a ∈ cd.*1 → a ∉ cells.*1)
      ∧ elements s' 2 = Some [7; 8]%Z
      ∧ size_of s' 2 = Some 2%Z
      ∧ elements s' 1 = Some [7; 8]%Z
      ∧ size_of s' 1 = Some 2%Z
      ∧ ((∀ x, Z.eqb x x = true) → operator_eq Z.eqb 3 2 1 s' = Ok true s')
      ∧ ∀ s'', rtc (step false 2) s' s'' →
               elements s'' 1 = Some [7; 8]%Z ∧ size_of s'' 1 = Some 2%Z.
Proof.
  intros s cells.
  assert (wf_list s 1 cells) as H1 by concrete_wf.
  assert (objs s !! 2%positive = None) as H2 by (vm_compute; reflexivity).
  assert (length cells < 3) as H3 by (simpl; lia).
  assert (Z.of_nat (size (heap s) + length cells) ≤ Z.min (mem_limit s) max_nodes)%Z
    as H4 by (vm_compute; discriminate).
  split; [exact H1|]. split; [exact H2|]. split; [exact H3|]. split; [exact H4|].
  exact (copy_round_trip 0%Z Z.eqb false 3 s 1 2 cells H1 H2 H3 H4).
Defined.

(** [InsertAfter(before_begin(), 5)] on {7, 8}, with the mutable overload
    of [before_begin]. *)
Lemma InsertAfter_before_begin_is_PushFront_witness :
  let s := one_list 10 [7; 8]%Z in
  wf_list s 1 [(1%positive, 7%Z); (2%positive, 8%Z)]
  ∧ (Z.of_nat (size (heap s)) + 2 ≤ Z.min (mem_limit s) max_nodes)%Z
  ∧ ∃ s1 s2 it,
      PushFront 1 5%Z s = Ok tt s1
      ∧ InsertAfter_before_begin Mutable 1 5%Z s = Ok it s2
      ∧ elements s1 1 = Some [5; 7; 8]%Z
      ∧ elements s2 1 = Some [5; 7; 8]%Z
      ∧ size_of s1 1 = Some 3%Z
      ∧ size_of s2 1 = Some 3%Z
      ∧ begin 1 s2 = Ok it s2
      ∧ (Mutable = ReadOnly → s2 = s1).
Proof.
  intros s.
  assert (wf_list s 1 [(1%positive, 7%Z); (2%positive, 8%Z)]) as H1 by concrete_wf.
  assert (Z.of_nat (size (heap s)) + 2 ≤ Z.min (mem_limit s) max_nodes)%Z
    as H2 by (vm_compute; discriminate).
  split; [exact H1|]. split; [exact H2|].
  exact (InsertAfter_before_begin_is_PushFront Mutable s 1 _ 5%Z H1 H2).
Defined.

(** [PushFront(5)] then [PopFront()] on {7, 8}. *)
Lemma PushFront_PopFront_inverse_witness :
  let s := one_list 10 [7; 8]%Z in
  wf_list s 1 [(1%positive, 7%Z); (2%positive, 8%Z)]
  ∧ can_allocate s = true
  ∧ ∃ s1 s2,
      PushFront 1 5%Z s = Ok tt s1
      ∧ PopFront false 1 s1 = Ok tt s2
      ∧ elements s2 1 = elements s 1
      ∧ size_of s2 1 = size_of s 1
      ∧ cells_of s2 1 = cells_of s 1.
Proof.
  intros s.
  assert (wf_list s 1 [(1%positive, 7%Z); (2%positive, 8%Z)]) as H1 by concrete_wf.
  assert (can_allocate s = true) as H2 by (vm_compute; reflexivity).
  split; [exact H1|]. split; [exact H2|].
  exact (PushFront_PopFront_inverse false s 1 _ 5%Z H1 H2).
Defined.

(** C6 as stated fails: in {7, 8} the cursor at the cell of 8 references the
    last real cell, and [EraseAfter] with it reads through the null link of
    that cell; no cursor is returned. *)
Lemma EraseAfter_at_last_cell_undefined :
  let s := one_list 10 [7; 8]%Z in
  let pos : ConstIterator := Iter (heap_node 2) in
  cells_of s 1 = Some [(1%positive, 7%Z); (2%positive, 8%Z)]
  ∧ returned (IsEmpty 1 s) = Some false
  ∧ node_at s (node_ pos) = Some {| value := 8%Z; next_node := nullptr |}
  ∧ EraseAfter 1 pos s = Undefined
  ∧ ¬ ∃ it s', EraseAfter 1 pos s = Ok it s'.
Proof.
  intros s pos.
  assert (EraseAfter 1 pos s = Undefined) as E by (vm_compute; reflexivity).
  repeat split; try (vm_compute; reflexivity).
  intros (it & s' & E'). rewrite E in E'. discriminate.
Qed.

(** Erasing the 8 of {7, 8}, from the cell of 7. *)
Lemma EraseAfter_before_last_cell_witness :
  let s := one_list 10 [7; 8]%Z in
  let pos : ConstIterator := Iter (heap_node 1) in
  wf_list s 1 ([(1%positive, 7%Z)] ++ [(2%positive, 8%Z)])
  ∧ node_ pos = last_ptr 1 [(1%positive, 7%Z)]
  ∧ ∃ (it e : Iterator) s',
      EraseAfter 1 pos s = Ok it s'
      ∧ end_ 1 s' = Ok e s'
      ∧ iter_eq it e = true
      ∧ elements s' 1 = Some [7]%Z
      ∧ size_of s' 1 = Some 1%Z.
Proof.
  intros s pos.
  assert (wf_list s 1 ([(1%positive, 7%Z)] ++ [(2%positive, 8%Z)])) as H1 by concrete_wf.
  assert (node_ pos = last_ptr 1 [(1%positive, 7%Z)]) as H2 by reflexivity.
  split; [exact H1|]. split; [exact H2|].
  exact (EraseAfter_before_last_cell s 1 _ 2 8%Z pos H1 H2).
Defined.

(** {7, 8} assigned from {1, 2, 3} with room for 7 nodes while 5 are live:
    the third allocation of the copy fails. *)
Lemma copy_assignment_safety_witness :
  let s := with_limit 7 (two_lists 100 [7; 8]%Z [1; 2; 3]%Z) in
  let s' := after (operator_assign 0%Z 4 1 2) s in
  wf_list s 1 [(1%positive, 7%Z); (2%positive, 8%Z)]
  ∧ operator_assign 0%Z 4 1 2 s = Throw s'
  ∧ operator_assign 0%Z 4 1 1 s = Ok tt s
  ∧ construct_copy 0%Z 4 (fresh (dom (objs s))) 2 s = Throw s'
  ∧ cells_of s' 1 = Some [(1%positive, 7%Z); (2%positive, 8%Z)]
  ∧ elements s' 1 = Some [7; 8]%Z
  ∧ size_of s' 1 = Some 2%Z.
Proof.
  intros s s'.
  assert (wf_list s 1 [(1%positive, 7%Z); (2%positive, 8%Z)]) as H1 by concrete_wf.
  assert (operator_assign 0%Z 4 1 2 s = Throw s') as H2 by (vm_compute; reflexivity).
  split; [exact H1|]. split; [exact H2|].
  destruct (copy_assignment_safety 0%Z 4 1 2 s _ H1) as [Hself Hthrow].
  split; [exact Hself|]. exact (Hthrow s' H2).
Defined.

(** {1,2,3} == {1,2,3} and {} == {} hold, {1,2,3} == {1,2} does not: what
    [operator==] returns, through the theorem. *)
Lemma operator_eq_correct_witness :
  (let s := two_lists 100 [1; 2; 3]%Z [1; 2; 3]%Z in
   wf_list s 1 [(1%positive, 1%Z); (2%positive, 2%Z); (3%positive, 3%Z)]
   ∧ wf_list s 2 [(4%positive, 1%Z); (5%positive, 2%Z); (6%positive, 3%Z)]
   ∧ operator_eq Z.eqb 4 1 2 s = Ok true s)
  ∧ (let s := two_lists 100 [1; 2; 3]%Z [1; 2]%Z in
     wf_list s 1 [(1%positive, 1%Z); (2%positive, 2%Z); (3%positive, 3%Z)]
     ∧ wf_list s 2 [(4%positive, 1%Z); (5%positive, 2%Z)]
     ∧ operator_eq Z.eqb 4 1 2 s = Ok false s)
  ∧ (let s := two_lists 100 []%Z []%Z in
     wf_list s 1 [] ∧ wf_list s 2 [] ∧ operator_eq Z.eqb 1 1 2 s = Ok true s).
Proof.
  split; [|split]; intros s.
  - assert (wf_list s 1 [(1%positive, 1%Z); (2%positive, 2%Z); (3%positive, 3%Z)])
      as H1 by concrete_wf.
    assert (wf_list s 2 [(4%positive, 1%Z); (5%positive, 2%Z); (6%positive, 3%Z)])
      as H2 by concrete_wf.
    split; [exact H1|]. split; [exact H2|].
    destruct (operator_eq_correct Z.eqb s 1 2 _ _ 4 H1 H2) as (r & E & _ & _ & Hr);
      [simpl; lia|].
    rewrite E. f_equal. apply Hr. split; [reflexivity|].
    intros [|[|[|i]]] x y Hx Hy; simpl in Hx, Hy; try discriminate;
      injection Hx as <-; injection Hy as <-; reflexivity.
  - assert (wf_list s 1 [(1%positive, 1%Z); (2%positive, 2%Z); (3%positive, 3%Z)])
      as H1 by concrete_wf.
    assert (wf_list s 2 [(4%positive, 1%Z); (5%positive, 2%Z)]) as H2 by concrete_wf.
    split; [exact H1|]. split; [exact H2|].
    destruct (operator_eq_correct Z.eqb s 1 2 _ _ 4 H1 H2) as (r & E & _ & _ & Hr);
      [simpl; lia|].
    rewrite E. f_equal. destruct r; [|reflexivity].
    destruct Hr as [Hr _]. destruct (Hr eq_refl) as [Hlen _]. discriminate Hlen.
  - assert (wf_list s 1 []) as H1 by concrete_wf.
    assert (wf_list s 2 []) as H2 by concrete_wf.
    split; [exact H1|]. split; [exact H2|].
    destruct (operator_eq_correct Z.eqb s 1 2 _ _ 1 H1 H2) as (r & E & _ & _ & Hr);
      [simpl; lia|].
    rewrite E. f_equal. apply Hr. split; [reflexivity|].
    intros i x y Hx. discriminate Hx.
Defined.

(** The same three comparisons by running the code. *)
Example operator_eq_examples :
  returned (operator_eq Z.eqb 5 1 2 (two_lists 100 [1; 2; 3]%Z [1; 2; 3]%Z)) = Some true
  ∧ returned (operator_eq Z.eqb 5 1 2 (two_lists 100 [1; 2; 3]%Z [1; 2]%Z)) = Some false
  ∧ returned (operator_eq Z.eqb 5 1 2 (two_lists 100 []%Z []%Z)) = Some true.
Proof. repeat split; vm_compute; reflexivity. Qed.

(** A mutable cursor at the cell of 7 in {7, 8}, incremented. *)
Lemma increment_total_witness :
  let s := one_list 10 [7; 8]%Z in
  let it : Iterator := Iter (heap_node 1) in
  let nd := {| value := 7%Z; next_node := heap_node 2 |} in
  node_at s (node_ it) = Some nd
  ∧ (Mutable = ReadOnly ∨ can_allocate s = true)
  ∧ pre_increment it s = Ok (Iter (heap_node 2)) s
  ∧ ∃ s', post_increment it s = Ok (it, Iter (heap_node 2)) s'
          ∧ (Mutable = ReadOnly → s' = s)
          ∧ objs s' = objs s
          ∧ heap s ⊆ heap s'.
Proof.
  intros s it nd.
  assert (node_at s (node_ it) = Some nd) as H1 by (vm_compute; reflexivity).
  assert (Mutable = ReadOnly ∨ can_allocate s = true) as H2
    by (right; vm_compute; reflexivity).
  split; [exact H1|]. split; [exact H2|].
  destruct (increment_total it s) as [_ Hlive].
  destruct (Hlive nd H1) as [Hpre Hpost].
  split; [exact Hpre|]. exact (Hpost H2).
Defined.

(** C9, [operator++] is not total: the failing input.  The container
    {7, 8} in a store whose two nodes are all the memory there is, and the
    mutable cursor that [begin()] returns, at the cell of 7.  The prefix
    increment moves that cursor to the cell of 8, and the postfix increment
    of the read-only cursor at the same cell does too.  The postfix
    increment of the mutable cursor first copies it with the constructor of
    lines 34-39, whose [new Node] throws inside a [noexcept] function: the
    program is terminated, and no cursor is moved to the successor. *)
Theorem post_increment_mutable_aborts_without_memory :
  let s := one_list 2 [7; 8]%Z in
  let it : Iterator := Iter (heap_node 1) in
  let cit : ConstIterator := Iter (heap_node 1) in
  wf_list s 1 [(1%positive, 7%Z); (2%positive, 8%Z)]
  ∧ can_allocate s = false
  ∧ begin 1 s = Ok it s
  ∧ pre_increment it s = Ok (Iter (heap_node 2)) s
  ∧ post_increment cit s = Ok (cit, Iter (heap_node 2)) s
  ∧ post_increment it s = Aborted.
Proof.
  intros s it cit.
  split; [concrete_wf|].
  repeat split; vm_compute; reflexivity.
Qed.

(** [EraseAfter(before_begin())] on a default-constructed container. *)
Lemma EraseAfter_before_begin_empty_witness :
  let s := after (construct_default 0%Z 1) (empty_store 10) in
  let pos : ConstIterator := Iter (head_of 1) in
  wf_list s 1 []
  ∧ before_begin 1 s = Ok pos s
  ∧ ∃ it e : Iterator,
      EraseAfter 1 pos s = Ok it s
      ∧ end_ 1 s = Ok e s
      ∧ iter_eq it e = true
      ∧ elements s 1 = Some []
      ∧ size_of s 1 = Some 0%Z.
Proof.
  intros s pos.
  assert (wf_list s 1 []) as H1 by concrete_wf.
  assert (before_begin 1 s = Ok pos s) as H2 by reflexivity.
  split; [exact H1|]. split; [exact H2|].
  exact (EraseAfter_before_begin_empty s 1 pos H1 H2).
Defined.

(** Iterating {10, 20, 30} from [begin()] to [end()]. *)
Example iteration_order :
  elements (one_list 10 [10; 20; 30]%Z) 1 = Some [10; 20; 30]%Z.
Proof. vm_compute. reflexivity. Qed.

(** ** The further properties at work *)

(** [Clear()] on {7, 8}. *)
Lemma Clear_frees_every_cell_witness :
  let s := one_list 10 [7; 8]%Z in
  let cells := [(1%positive, 7%Z); (2%positive, 8%Z)] in
  wf_list s 1 cells
  ∧ length cells < 3
  ∧ ∃ s', Clear 3 1 s = Ok tt s'
          ∧ elements s' 1 = Some []
          ∧ size_of s' 1 = Some 0%Z
          ∧ heap s' !! 1%positive = None
          ∧ heap s' !! 2%positive = None
          ∧ size (heap s') + 2 = size (heap s).
Proof.
  intros s cells.
  assert (wf_list s 1 cells) as H1 by concrete_wf.
  assert (length cells < 3) as H2 by (simpl; lia).
  split; [exact H1|]. split; [exact H2|].
  destruct (Clear_frees_every_cell 3 s 1 cells H1 H2)
    as (s' & E & _ & Hel & Hsz & Hgone & _ & Hsize & _).
  exists s'. split; [exact E|]. split; [exact Hel|]. split; [exact Hsz|].
  split; [apply Hgone, list_elem_of_here|].
  split; [apply Hgone, list_elem_of_further, list_elem_of_here|exact Hsize].
Defined.

(** The destructor of {7, 8}. *)
Lemma destroy_frees_everything_witness :
  let s := one_list 10 [7; 8]%Z in
  let cells := [(1%positive, 7%Z); (2%positive, 8%Z)] in
  wf_list s 1 cells
  ∧ length cells < 3
  ∧ ∃ s', destroy 3 1 s = Ok tt s'
          ∧ objs s' = delete 1%positive (objs s)
          ∧ size (heap s') + 2 = size (heap s).
Proof.
  intros s cells.
  assert (wf_list s 1 cells) as H1 by concrete_wf.
  assert (length cells < 3) as H2 by (simpl; lia).
  split; [exact H1|]. split; [exact H2|].
  destruct (destroy_frees_everything 3 s 1 cells H1 H2)
    as (s' & E & Hobjs & _ & _ & Hsize & _).
  exists s'. split; [exact E|]. split; [exact Hobjs|exact Hsize].
Defined.

(** {7, 8} and {1, 2, 3} swapped. *)
Lemma swap_exchanges_witness :
  let s := two_lists 100 [7; 8]%Z [1; 2; 3]%Z in
  let ca := [(1%positive, 7%Z); (2%positive, 8%Z)] in
  let cb := [(3%positive, 1%Z); (4%positive, 2%Z); (5%positive, 3%Z)] in
  wf_list s 1 ca
  ∧ wf_list s 2 cb
  ∧ ∃ s', swap 1 2 s = Ok tt s'
          ∧ swap_free 1 2 s = Ok tt s'
          ∧ cells_of s' 1 = Some cb
          ∧ cells_of s' 2 = Some ca
          ∧ heap s' = heap s.
Proof.
  intros s ca cb.
  assert (wf_list s 1 ca) as H1 by concrete_wf.
  assert (wf_list s 2 cb) as H2 by concrete_wf.
  split; [exact H1|]. split; [exact H2|].
  destruct (swap_exchanges s 1 2 ca cb H1 H2) as (s' & E & E' & Ha & Hb & Hheap & _).
  exists s'. split; [exact E|]. split; [exact E'|].
  split; [exact (wf_cells_of _ _ _ Ha)|]. split; [exact (wf_cells_of _ _ _ Hb)|exact Hheap].
Defined.

(** {7, 8} assigned from {1, 2, 3}, with room. *)
Lemma operator_assign_copies_witness :
  let s := two_lists 100 [7; 8]%Z [1; 2; 3]%Z in
  let ct := [(1%positive, 7%Z); (2%positive, 8%Z)] in
  let cr := [(3%positive, 1%Z); (4%positive, 2%Z); (5%positive, 3%Z)] in
  wf_list s 1 ct
  ∧ wf_list s 2 cr
  ∧ (∀ a, a ∈ ct.*1 → a ∉ cr.*1)
  ∧ (Z.of_nat (size (heap s) + length cr) ≤ Z.min (mem_limit s) max_nodes)%Z
  ∧ ∃ s', operator_assign 0%Z 4 1 2 s = Ok tt s'
          ∧ elements s' 1 = Some [1; 2; 3]%Z
          ∧ size_of s' 1 = Some 3%Z
          ∧ cells_of s' 2 = Some cr
          ∧ size (heap s') + 2 = size (heap s) + 3.
Proof.
  intros s ct cr.
  assert (wf_list s 1 ct) as H1 by concrete_wf.
  assert (wf_list s 2 cr) as H2 by concrete_wf.
  assert (∀ a, a ∈ ct.*1 → a ∉ cr.*1) as H3.
  { intros a Ha Hb. simpl in Ha, Hb.
    repeat (apply elem_of_cons in Ha as [->|Ha]);
      [| |by apply elem_of_nil in Ha];
      repeat (apply elem_of_cons in Hb as [Hb|Hb]; [discriminate Hb|]);
      by apply elem_of_nil in Hb. }
  assert (Z.of_nat (size (heap s) + length cr) ≤ Z.min (mem_limit s) max_nodes)%Z
    as H4 by (vm_compute; discriminate).
  split; [exact H1|]. split; [exact H2|]. split; [exact H3|]. split; [exact H4|].
  destruct (operator_assign_copies 0%Z 4 s 1 2 ct cr H1 H2) as
    (s' & E & Hel & Hsz & Hr & _ & _ & Hsize & _);
    [discriminate|exact H3|simpl; lia|simpl; lia|exact H4|].
  exists s'. split; [exact E|]. split; [exact Hel|]. split; [exact Hsz|].
  split; [exact Hr|exact Hsize].
Defined.

(** {10, 20, 30} built in an empty store with room for ten nodes. *)
Lemma construct_from_values_builds_witness :
  let s := empty_store 10 in
  (Z.of_nat (size (heap s) + 3) ≤ Z.min (mem_limit s) max_nodes)%Z
  ∧ ∃ s', construct_from_values 0%Z 1 [10; 20; 30]%Z s = Ok tt s'
          ∧ elements s' 1 = Some [10; 20; 30]%Z
          ∧ size_of s' 1 = Some 3%Z.
Proof.
  intros s.
  assert (Z.of_nat (size (heap s) + 3) ≤ Z.min (mem_limit s) max_nodes)%Z
    as H1 by (vm_compute; discriminate).
  split; [exact H1|].
  destruct (construct_from_values_builds 0%Z s 1 [10; 20; 30]%Z H1)
    as (s' & E & Hel & Hsz & _).
  exists s'. split; [exact E|]. split; [exact Hel|exact Hsz].
Defined.

(** {10, 20, 30} built where only two nodes fit: two nodes are left behind. *)
Lemma construct_from_values_throw_leaks_witness :
  let s := empty_store 2 in
  objs s !! 1%positive = None
  ∧ room s < 3
  ∧ ∃ s' leaked,
      construct_from_values 0%Z 1 [10; 20; 30]%Z s = Throw s'
      ∧ objs s' = objs s
      ∧ size (heap s') = size (heap s) + 2
      ∧ leaked.*2 = [10; 20]%Z
      ∧ is_seg (heap s') leaked nullptr.
Proof.
  intros s.
  assert (objs s !! 1%positive = None) as H1 by reflexivity.
  assert (room s < 3) as H2 by (vm_compute; lia).
  split; [exact H1|]. split; [exact H2|].
  destruct (construct_from_values_throw_leaks 0%Z s 1 [10; 20; 30]%Z H1 H2)
    as (s' & leaked & E & Hobjs & _ & Hsize & Hv & Hseg & _).
  exists s', leaked. split; [exact E|]. split; [exact Hobjs|]. split; [exact Hsize|].
  split; [exact Hv|exact Hseg].
Defined.

(** In {7, 8}: one increment from [begin()] is at 8, two are at [end()]. *)
Lemma traversal_visits_elements_in_order_witness :
  let s := one_list 10 [7; 8]%Z in
  let cells := [(1%positive, 7%Z); (2%positive, 8%Z)] in
  wf_list s 1 cells
  ∧ (∃ it e : ConstIterator,
       bind (begin 1) (increment_n 1) s = Ok it s ∧ end_ 1 s = Ok e s
       ∧ deref it s = Ok 8%Z s ∧ iter_eq it e = false)
  ∧ (∃ it e : ConstIterator,
       bind (begin 1) (increment_n 2) s = Ok it s ∧ end_ 1 s = Ok e s
       ∧ iter_eq it e = true).
Proof.
  intros s cells.
  assert (wf_list s 1 cells) as H1 by concrete_wf.
  split; [exact H1|]. split.
  - destruct (traversal_visits_elements_in_order s 1 cells 1 H1) as (it & e & E & Ee & Hd & Hne).
    exists it, e. split; [exact E|]. split; [exact Ee|]. split; [exact Hd|exact Hne].
  - destruct (traversal_visits_elements_in_order s 1 cells 2 H1) as (it & e & E & Ee & He).
    exists it, e. split; [exact E|]. split; [exact Ee|exact He].
Defined.

(** {7, 8} is not empty and its [begin()] is not its [end()]. *)
Lemma IsEmpty_iff_begin_is_end_witness :
  let s := one_list 10 [7; 8]%Z in
  let cells := [(1%positive, 7%Z); (2%positive, 8%Z)] in
  wf_list s 1 cells
  ∧ ∃ b e : Iterator,
      begin 1 s = Ok b s ∧ end_ 1 s = Ok e s
      ∧ IsEmpty 1 s = Ok (iter_eq b e) s
      ∧ (iter_eq b e = true ↔ cells = []).
Proof.
  intros s cells.
  assert (wf_list s 1 cells) as H1 by concrete_wf.
  split; [exact H1|]. exact (IsEmpty_iff_begin_is_end s 1 cells H1).
Defined.

(** [PopFront()] on a default-constructed container, with [assert] on. *)
Lemma PopFront_on_empty_witness :
  let s := after (construct_default 0%Z 1) (empty_store 10) in
  wf_list s 1 [] ∧ PopFront false 1 s = Aborted.
Proof.
  intros s.
  assert (wf_list s 1 []) as H1 by concrete_wf.
  split; [exact H1|]. exact (PopFront_on_empty false s 1 H1).
Defined.

(** 5 inserted between 7 and 8. *)
Lemma InsertAfter_splices_witness :
  let s := one_list 10 [7; 8]%Z in
  let pos : ConstIterator := Iter (heap_node 1) in
  wf_list s 1 ([(1%positive, 7%Z)] ++ [(2%positive, 8%Z)])
  ∧ node_ pos = last_ptr 1 [(1%positive, 7%Z)]
  ∧ can_allocate s = true
  ∧ ∃ it s',
      InsertAfter 1 pos 5%Z s = Ok it s'
      ∧ elements s' 1 = Some [7; 5; 8]%Z
      ∧ size_of s' 1 = Some 3%Z
      ∧ deref it s' = Ok 5%Z s'
      ∧ pre_increment it s' = Ok (Iter (heap_node 2)) s'.
Proof.
  intros s pos.
  assert (wf_list s 1 ([(1%positive, 7%Z)] ++ [(2%positive, 8%Z)])) as H1 by concrete_wf.
  assert (node_ pos = last_ptr 1 [(1%positive, 7%Z)]) as H2 by reflexivity.
  assert (can_allocate s = true) as H3 by (vm_compute; reflexivity).
  split; [exact H1|]. split; [exact H2|]. split; [exact H3|].
  destruct (InsertAfter_splices s 1 _ _ pos 5%Z H1 H2 H3)
    as (a & it & s' & E & _ & _ & _ & Hel & Hsz & Hd & Hinc & _).
  exists it, s'. split; [exact E|]. split; [exact Hel|]. split; [exact Hsz|].
  split; [exact Hd|exact Hinc].
Defined.

(** The 7 of {7, 8} erased from the sentinel. *)
Lemma EraseAfter_removes_witness :
  let s := one_list 10 [7; 8]%Z in
  let pos : ConstIterator := Iter (head_of 1) in
  wf_list s 1 ([] ++ (1%positive, 7%Z) :: [(2%positive, 8%Z)])
  ∧ node_ pos = last_ptr (T:=Z) 1 []
  ∧ ∃ it s',
      EraseAfter 1 pos s = Ok it s'
      ∧ node_ it = heap_node 2
      ∧ elements s' 1 = Some [8]%Z
      ∧ size_of s' 1 = Some 1%Z
      ∧ heap s' !! 1%positive = None.
Proof.
  intros s pos.
  assert (wf_list s 1 ([] ++ (1%positive, 7%Z) :: [(2%positive, 8%Z)])) as H1
    by concrete_wf.
  assert (node_ pos = last_ptr (T:=Z) 1 []) as H2 by reflexivity.
  split; [exact H1|]. split; [exact H2|].
  destruct (EraseAfter_removes s 1 [] 1 7%Z [(2%positive, 8%Z)] pos H1 H2)
    as (it & s' & E & Hit & _ & Hel & Hsz & Hgone & _).
  exists it, s'. split; [exact E|]. split; [exact Hit|]. split; [exact Hel|].
  split; [exact Hsz|exact Hgone].
Defined.

(** {7, 8} in a store with room for two nodes: insertions throw. *)
Lemma insertion_throw_changes_nothing_witness :
  let s := one_list 2 [7; 8]%Z in
  let cells := [(1%positive, 7%Z); (2%positive, 8%Z)] in
  let pos : ConstIterator := Iter (heap_node 2) in
  wf_list s 1 cells
  ∧ belongs 1 cells (node_ pos)
  ∧ can_allocate s = false
  ∧ PushFront 1 5%Z s = Throw s
  ∧ InsertAfter 1 pos 5%Z s = Throw s.
Proof.
  intros s cells pos.
  assert (wf_list s 1 cells) as H1 by concrete_wf.
  assert (belongs 1 cells (node_ pos)) as H2.
  { right. exists 2%positive. split; [reflexivity|].
    apply list_elem_of_further, list_elem_of_here. }
  assert (can_allocate s = false) as H3 by (vm_compute; reflexivity).
  split; [exact H1|]. split; [exact H2|]. split; [exact H3|].
  exact (insertion_throw_changes_nothing s 1 cells pos 5%Z H1 H2 H3).
Defined.

(** A copy of the mutable cursor at 7 in {7, 8}. *)
Lemma mutable_cursor_copy_leaks_witness :
  let s := one_list 10 [7; 8]%Z in
  let it : Iterator := Iter (heap_node 1) in
  let cit : ConstIterator := Iter (heap_node 1) in
  node_at s (node_ it) = Some {| value := 7%Z; next_node := heap_node 2 |}
  ∧ can_allocate s = true
  ∧ ∃ s', BasicIterator_copy it s = Ok it s'
          ∧ size (heap s') = S (size (heap s))
          ∧ objs s' = objs s
          ∧ BasicIterator_copy cit s = Ok cit s.
Proof.
  intros s it cit.
  assert (node_at s (node_ it) = Some {| value := 7%Z; next_node := heap_node 2 |})
    as H1 by (vm_compute; reflexivity).
  assert (can_allocate s = true) as H2 by (vm_compute; reflexivity).
  split; [exact H1|]. split; [exact H2|].
  destruct (mutable_cursor_copy_leaks it cit s _ H1 H2)
    as (s' & E & _ & Hsize & Hobjs & _ & _ & Ec).
  exists s'. split; [exact E|]. split; [exact Hsize|]. split; [exact Hobjs|exact Ec].
Defined.

Lemma Z_ltb_asymmetric (x y : Z) : Z.ltb x y = true → Z.ltb y x = false.
Proof. intros H%Z.ltb_lt. apply Z.ltb_ge. lia. Qed.

(** {1, 2} against {1, 3}, both ways. *)
Lemma operator_lt_asymmetric_witness :
  let s := two_lists 100 [1; 2]%Z [1; 3]%Z in
  let ca := [(1%positive, 1%Z); (2%positive, 2%Z)] in
  let cb := [(3%positive, 1%Z); (4%positive, 3%Z)] in
  (∀ x y, Z.ltb x y = true → Z.ltb y x = false)
  ∧ wf_list s 1 ca
  ∧ wf_list s 2 cb
  ∧ ∃ r1 r2,
      operator_lt Z.ltb 3 1 2 s = Ok r1 s
      ∧ operator_lt Z.ltb 3 2 1 s = Ok r2 s
      ∧ (r1 = true → r2 = false).
Proof.
  intros s ca cb.
  assert (wf_list s 1 ca) as H1 by concrete_wf.
  assert (wf_list s 2 cb) as H2 by concrete_wf.
  split; [exact Z_ltb_asymmetric|]. split; [exact H1|]. split; [exact H2|].
  destruct (operator_lt_asymmetric Z.ltb s 1 2 ca cb 3 Z_ltb_asymmetric H1 H2)
    as (r1 & r2 & E1 & E2 & H & _); [simpl; lia|simpl; lia|].
  exists r1, r2. split; [exact E1|]. split; [exact E2|exact H].
Defined.

(** {1, 2} against {1, 3} under [<=]. *)
Lemma operator_le_total_witness :
  let s := two_lists 100 [1; 2]%Z [1; 3]%Z in
  let ca := [(1%positive, 1%Z); (2%positive, 2%Z)] in
  let cb := [(3%positive, 1%Z); (4%positive, 3%Z)] in
  (∀ x y, Z.ltb x y = true → Z.ltb y x = false)
  ∧ wf_list s 1 ca
  ∧ wf_list s 2 cb
  ∧ ∃ r1 r2,
      operator_le Z.ltb 3 1 2 s = Ok r1 s
      ∧ operator_le Z.ltb 3 2 1 s = Ok r2 s
      ∧ (r1 = true ∨ r2 = true).
Proof.
  intros s ca cb.
  assert (wf_list s 1 ca) as H1 by concrete_wf.
  assert (wf_list s 2 cb) as H2 by concrete_wf.
  split; [exact Z_ltb_asymmetric|]. split; [exact H1|]. split; [exact H2|].
  destruct (operator_le_total Z.ltb s 1 2 ca cb 3 Z_ltb_asymmetric H1 H2)
    as (r1 & r2 & E1 & E2 & H & _); [simpl; lia|simpl; lia|].
  exists r1, r2. split; [exact E1|]. split; [exact E2|exact H].
Defined.

(** {1, 2} against {1, 3} under [==], both ways. *)
Lemma operator_eq_symmetric_witness :
  let s := two_lists 100 [1; 2]%Z [1; 3]%Z in
  let ca := [(1%positive, 1%Z); (2%positive, 2%Z)] in
  let cb := [(3%positive, 1%Z); (4%positive, 3%Z)] in
  (∀ x y, Z.eqb x y = Z.eqb y x)
  ∧ wf_list s 1 ca
  ∧ wf_list s 2 cb
  ∧ ∃ r,
      operator_eq Z.eqb 3 1 2 s = Ok r s
      ∧ operator_eq Z.eqb 3 2 1 s = Ok r s
      ∧ operator_ne Z.eqb 3 1 2 s = Ok (negb r) s.
Proof.
  intros s ca cb.
  assert (wf_list s 1 ca) as H1 by concrete_wf.
  assert (wf_list s 2 cb) as H2 by concrete_wf.
  split; [exact Z.eqb_sym|]. split; [exact H1|]. split; [exact H2|].
  apply (operator_eq_symmetric Z.eqb s 1 2 ca cb 3 Z.eqb_sym H1 H2); simpl; lia.
Defined.

(** [EraseAfter] with the cursor at the 8 of {7, 8}. *)
Lemma EraseAfter_at_last_real_cell_is_undefined_witness :
  let s := one_list 10 [7; 8]%Z in
  let pos : ConstIterator := Iter (heap_node 2) in
  wf_list s 1 ([(1%positive, 7%Z)] ++ [(2%positive, 8%Z)])
  ∧ node_ pos = heap_node 2
  ∧ EraseAfter 1 pos s = Undefined.
Proof.
  intros s pos.
  assert (wf_list s 1 ([(1%positive, 7%Z)] ++ [(2%positive, 8%Z)])) as H1 by concrete_wf.
  split; [exact H1|]. split; [reflexivity|].
  exact (EraseAfter_at_last_real_cell_is_undefined s 1 _ 2 8%Z pos H1 eq_refl).
Defined.

(** [PopFront()] on {7, 8}. *)
Lemma PopFront_removes_first_witness :
  let s := one_list 10 [7; 8]%Z in
  wf_list s 1 [(1%positive, 7%Z); (2%positive, 8%Z)]
  ∧ ∃ s', PopFront false 1 s = Ok tt s'
          ∧ elements s' 1 = Some [8]%Z
          ∧ size_of s' 1 = Some 1%Z
          ∧ heap s' !! 1%positive = None.
Proof.
  intros s.
  assert (wf_list s 1 [(1%positive, 7%Z); (2%positive, 8%Z)]) as H1 by concrete_wf.
  split; [exact H1|].
  destruct (PopFront_removes_first false s 1 1 7%Z [(2%positive, 8%Z)] H1)
    as (s' & E & _ & _ & Hel & Hsz & Hgone & _).
  exists s'. split; [exact E|]. split; [exact Hel|]. split; [exact Hsz|exact Hgone].
Defined.
